(** * optimize-webp: a shallow embedding of [scripts/optimize-webp.mjs]

    The script walks [<cwd>/images], re-encodes every [.webp] file through
    the [sharp] library and replaces a file when the result is smaller or
    the image had to be downsized.  The embedding keeps the structure of the
    script: the module-level constants, [exists], [walk], [optimizeWebp],
    [main] and the top-level [catch] handler.

    The two libraries the script imports are interfaces here:
    [node:fs/promises] is the class [NodeFs] over an abstract store, and
    [sharp] is the class [SharpLib] over an abstract image handle.  Every
    call of either may throw.  A concrete store ([Posix]) and a table-driven
    image library ([Stub]) instantiate them for the executable examples. *)

From Stdlib Require Import ZArith Ascii String List.
From stdpp Require Import gmap strings list fin_maps sorting pretty.

Open Scope string_scope.
Open Scope list_scope.
Open Scope Z_scope.

(** ** JavaScript values used by the script *)

Module Js.

(** A [Buffer]: a sequence of bytes; [buf.length] is its byte count. *)
Definition Buffer := list Byte.byte.

Definition buf_length (b : Buffer) : Z := Z.of_nat (List.length b).

(** A thrown value.  Only its identity matters: the script never inspects
    an error, it either drops it ([catch {}]) or passes it on. *)
Definition Error := string.

(** The numbers the script computes with are integers or [NaN]
    ([parseInt] yields nothing else).  Doubles are exact on integers below
    2^53, far above any byte count or pixel width. *)
Inductive number :=
| Num (z : Z)
| NaN.

(** [a > b] on numbers: any comparison with [NaN] is false. *)
Definition num_gt (a b : number) : bool :=
  match a, b with
  | Num x, Num y => y <? x
  | _, _ => false
  end.

(** [String.prototype.toLowerCase].  Paths are byte strings; bytes outside
    [A-Z] are kept.  (Unicode lowercasing maps no character outside ASCII
    to one of the characters of [".webp"], so the suffix test below agrees
    with the script on every path.) *)
Definition lower_char (c : ascii) : ascii :=
  let n := nat_of_ascii c in
  if ((65 <=? n)%nat && (n <=? 90)%nat)%bool then ascii_of_nat (n + 32) else c.

Fixpoint toLowerCase (s : string) : string :=
  match s with
  | EmptyString => EmptyString
  | String c s' => String (lower_char c) (toLowerCase s')
  end.

(** [String.prototype.endsWith]: [s] ends with [suffix] when [s] is
    [suffix] or the rest of [s] ends with it. *)
Fixpoint endsWith (s suffix : string) : bool :=
  String.eqb s suffix ||
  match s with
  | EmptyString => false
  | String _ s' => endsWith s' suffix
  end.

(** [a || b] on an optional string: [undefined] and [""] are falsy. *)
Definition or_else (a : option string) (b : string) : string :=
  match a with
  | Some s => if String.eqb s "" then b else s
  | None => b
  end.

(** The white space of JavaScript ([WhiteSpace] and [LineTerminator])
    outside ASCII, in the UTF-8 bytes of an environment variable: U+00A0 in
    two bytes; U+1680, U+2000 to U+200A, U+2028, U+2029, U+202F, U+205F,
    U+3000 and U+FEFF in three. *)
Definition space_lead (a : ascii) : bool :=
  let n := nat_of_ascii a in
  ((n =? 194) || (n =? 225) || (n =? 226) || (n =? 227) || (n =? 239))%nat.

Definition space2 (a b : ascii) : bool :=
  ((nat_of_ascii a =? 194) && (nat_of_ascii b =? 160))%nat.

Definition space3 (a b c : ascii) : bool :=
  let '(x, y, z) := (nat_of_ascii a, nat_of_ascii b, nat_of_ascii c) in
  (((x =? 225) && (y =? 154) && (z =? 128))
   || ((x =? 226) && (y =? 128)
       && (((128 <=? z) && (z <=? 138)) || (z =? 168) || (z =? 169)
           || (z =? 175)))
   || ((x =? 226) && (y =? 129) && (z =? 159))
   || ((x =? 227) && (y =? 128) && (z =? 128))
   || ((x =? 239) && (y =? 187) && (z =? 191)))%nat.

(** [parseInt(s, 10)]: leading white space is skipped, one sign is
    accepted, then the longest run of decimal digits is read; with no digit
    the result is [NaN].  Anything after the digits is ignored. *)
Fixpoint trimStart (s : string) : string :=
  match s with
  | String a s1 =>
      if Ascii.is_space a then trimStart s1
      else if space_lead a then
        match s1 with
        | String b s2 =>
            if space2 a b then trimStart s2
            else
              match s2 with
              | String c s3 => if space3 a b c then trimStart s3 else s
              | EmptyString => s
              end
        | EmptyString => s
        end
      else s
  | EmptyString => EmptyString
  end.

Fixpoint digits (s : string) (acc : option Z) : option Z :=
  match s with
  | String c s' =>
      match Ascii.is_nat c with
      | Some d => digits s' (Some (10 * default 0 acc + Z.of_nat d))
      | None => acc
      end
  | EmptyString => acc
  end.

(** The value is the integer that was read; the script has the double
    nearest to it, which is the same integer below 2^53. *)
Definition parseInt (s : string) : number :=
  let s1 := trimStart s in
  let '(sign, s2) :=
    match s1 with
    | String "-"%char r => (-1, r)
    | String "+"%char r => (1, r)
    | _ => (1, s1)
    end in
  match digits s2 None with
  | Some n => Num (sign * n)
  | None => NaN
  end.

(** A string that starts with a decimal digit. *)
Definition digit_led (s : string) : Prop :=
  exists c rest d, s = String c rest /\ Ascii.is_nat c = Some d.

(** Template literals print an integer in decimal, with a leading [-]
    when it is negative. *)
Definition show (z : Z) : string := pretty z.

End Js.
Import Js.

(** ** [node:path] on normalised POSIX paths

    [process.cwd()] is absolute and normalised and [readdir] yields plain
    names (no separator, never [.] or [..]); on such arguments [path.join]
    only has to put one separator between its arguments. *)

Module Path.

Definition dir_prefix (dir : string) : string :=
  if endsWith dir "/" then dir else dir +:+ "/".

Definition join (dir name : string) : string := dir_prefix dir +:+ name.

Fixpoint strip_prefix (pre s : string) : option string :=
  match pre with
  | EmptyString => Some s
  | String a pre' =>
      match s with
      | String b s' => if Ascii.eqb a b then strip_prefix pre' s' else None
      | EmptyString => None
      end
  end.

(** [path.relative(from, to)] for a [to] below [from]: what follows the
    directory prefix.  (The script only passes paths that [walk] built
    from [ROOT]; for any other path the model returns [to] itself.) *)
Definition relative (from to : string) : string :=
  match strip_prefix (dir_prefix from) to with
  | Some rest => rest
  | None => to
  end.

End Path.

(** ** The process: working directory and environment *)

Record Process := {
  cwd : string;
  env : gmap string string;
}.

Section Constants.

Variable process : Process.

Definition ROOT : string := cwd process.
Definition TARGET_DIR : string := Path.join ROOT "images".
Definition MAX_WIDTH : number :=
  parseInt (or_else (env process !! "MAX_WIDTH") "1920").
Definition QUALITY : number :=
  parseInt (or_else (env process !! "WEBP_QUALITY") "80").

End Constants.

(** ** Effects: results, the world, and the script's monad *)

(** What a library call hands back: a value, or a thrown error. *)
Inductive result (A : Type) :=
| Ok (a : A)
| Err (e : Error).
Arguments Ok {A} a.
Arguments Err {A} e.

(** What an [async] function of the script settles to.  [NoFuel] is not a
    JavaScript outcome: it marks a recursion of [walk] cut by the fuel of
    the model. *)
Inductive outcome (A : Type) :=
| Resolved (a : A)
| Rejected (e : Error)
| NoFuel.
Arguments Resolved {A} a.
Arguments Rejected {A} e.
Arguments NoFuel {A}.

(** One entry of [readdir(dir, { withFileTypes: true })]. *)
Record Dirent := {
  name : string;
  isDirectory : bool;
}.

(** The part of [meta] the script looks at. *)
Record Metadata := {
  width : option Z;
}.

(** [node:fs/promises], as far as the script calls it.  The three queries
    leave the store alone; [writeFile] and [rename] return the store they
    leave behind, also when they fail. *)
Class NodeFs (St : Type) := {
  fs_access : string -> St -> result unit;
  fs_readdir : string -> St -> result (list Dirent);
  fs_readFile : string -> St -> result Buffer;
  fs_writeFile : string -> Buffer -> St -> result unit * St;
  fs_rename : string -> string -> St -> result unit * St;
}.

(** [sharp], as far as the script calls it: the constructor
    [sharp(buf, { failOnError: false })], [metadata()],
    [resize({ width, withoutEnlargement: true })], [webp({ quality })] and
    [toBuffer()]. *)
Class SharpLib (Img : Type) := {
  sharp : Buffer -> result Img;
  sharp_metadata : Img -> result (option Metadata);
  sharp_resize : number -> Img -> result Img;
  sharp_webp : number -> Img -> result Img;
  sharp_toBuffer : Img -> result Buffer;
}.

(** What [sharp] does with a width that is no positive integer:
    [resize] throws ([Expected positive integer for width but received
    ...]) when it is called, before anything is encoded.  The interface
    above leaves this open; a statement that relies on it assumes it by
    name, and only for the widths it needs: the negative ones. *)
Definition resize_validates_width (Img : Type) `{!SharpLib Img} : Prop :=
  forall (z : Z) (img : Img),
    z < 0 -> exists e, sharp_resize (Num z) img = Err e.

(** Every call into the file system is recorded, in order. *)
Inductive fs_op :=
| OpAccess (p : string)
| OpReaddir (p : string)
| OpReadFile (p : string)
| OpWriteFile (p : string) (data : Buffer)
| OpRename (src dst : string).

Record World (St : Type) := {
  store : St;
  fs_log : list fs_op;
  stdout : list string;
  stderr : list Error;
}.
Arguments store {St} w.
Arguments fs_log {St} w.
Arguments stdout {St} w.
Arguments stderr {St} w.

(** Equality of these values is decidable; the examples compare results
    by computation. *)
#[global] Instance byte_eq_dec : EqDecision Byte.byte := Byte.byte_eq_dec.
#[global] Instance number_eq_dec : EqDecision number.
Proof. solve_decision. Defined.
#[global] Instance result_eq_dec {A} `{EqDecision A} : EqDecision (result A).
Proof. solve_decision. Defined.
#[global] Instance outcome_eq_dec {A} `{EqDecision A} : EqDecision (outcome A).
Proof. solve_decision. Defined.
#[global] Instance fs_op_eq_dec : EqDecision fs_op.
Proof. solve_decision. Defined.
#[global] Instance World_eq_dec {St} `{EqDecision St} : EqDecision (World St).
Proof. solve_decision. Defined.

Definition M (St A : Type) : Type := World St -> outcome A * World St.

Definition ret {St A} (a : A) : M St A := fun w => (Resolved a, w).

Definition bind {St A B} (m : M St A) (k : A -> M St B) : M St B :=
  fun w =>
    match m w with
    | (Resolved a, w') => k a w'
    | (Rejected e, w') => (Rejected e, w')
    | (NoFuel, w') => (NoFuel, w')
    end.

Notation "'let*' x ':=' m 'in' k" := (bind m (fun x => k))
  (at level 10, x pattern, m at level 100, k at level 200).
Notation "m ';;' k" := (bind m (fun _ => k))
  (at level 100, k at level 200, right associativity).

(** [try { m } catch { h }] *)
Definition try_catch {St A} (m : M St A) (h : M St A) : M St A :=
  fun w =>
    match m w with
    | (Rejected _, w') => h w'
    | r => r
    end.

(** A library call without effect on the world. *)
Definition lift {St A} (r : result A) : M St A :=
  fun w =>
    match r with
    | Ok a => (Resolved a, w)
    | Err e => (Rejected e, w)
    end.

Definition out_of_fuel {St A} : M St A := fun w => (NoFuel, w).

Definition logged {St} (op : fs_op) (s : St) (w : World St) : World St :=
  {| store := s; fs_log := fs_log w ++ [op];
     stdout := stdout w; stderr := stderr w |}.

Definition console_log {St} (line : string) : M St unit :=
  fun w =>
    (Resolved tt,
     {| store := store w; fs_log := fs_log w;
        stdout := stdout w ++ [line]; stderr := stderr w |}).

Definition console_error {St} (e : Error) (w : World St) : World St :=
  {| store := store w; fs_log := fs_log w;
     stdout := stdout w; stderr := stderr w ++ [e] |}.

Section Fs.

Context {St : Type} `{!NodeFs St}.

Definition access (p : string) : M St unit :=
  fun w => lift (fs_access p (store w)) (logged (OpAccess p) (store w) w).

Definition readdir (p : string) : M St (list Dirent) :=
  fun w => lift (fs_readdir p (store w)) (logged (OpReaddir p) (store w) w).

Definition readFile (p : string) : M St Buffer :=
  fun w => lift (fs_readFile p (store w)) (logged (OpReadFile p) (store w) w).

Definition writeFile (p : string) (data : Buffer) : M St unit :=
  fun w =>
    let '(r, s') := fs_writeFile p data (store w) in
    lift r (logged (OpWriteFile p data) s' w).

Definition rename (src dst : string) : M St unit :=
  fun w =>
    let '(r, s') := fs_rename src dst (store w) in
    lift r (logged (OpRename src dst) s' w).

End Fs.

(** ** The script *)

(** The object [optimizeWebp] returns: [{ changed: false }], with or without
    a [reason], or [{ changed: true, resized, oldBytes, newBytes, width }]. *)
Inductive OptimizeResult :=
| Unchanged (reason : option string)
| Changed (resized : bool) (oldBytes newBytes : Z) (width : Z).

#[global] Instance OptimizeResult_eq_dec : EqDecision OptimizeResult.
Proof. solve_decision. Defined.

Definition changed (r : OptimizeResult) : bool :=
  match r with
  | Changed _ _ _ _ => true
  | Unchanged _ => false
  end.

(** [f.toLowerCase().endsWith(".webp")], the test of both [main] and
    [optimizeWebp]. *)
Definition is_webp (f : string) : bool := endsWith (toLowerCase f) ".webp".

(** [meta?.width ?? 0] *)
Definition width_or_0 (meta : option Metadata) : Z :=
  match meta with
  | Some m => default 0 (width m)
  | None => 0
  end.

Definition optimized_line (rel : string) (oldBytes newBytes : Z) : string :=
  "✅ optimized: " +:+ rel +:+ " (" +:+ show oldBytes +:+ " -> "
    +:+ show newBytes +:+ " bytes)".

Definition done_line (changedCount savedBytes : Z) : string :=
  "Done. changed=" +:+ show changedCount +:+ ", saved=" +:+ show savedBytes
    +:+ " bytes".

Definition no_dir_line (dir : string) : string :=
  "No images/ directory found at: " +:+ dir.

Section Script.

Context {St : Type} `{!NodeFs St} {Img : Type} `{!SharpLib Img}.
Variable process : Process.

Definition exists_ (p : string) : M St bool :=
  try_catch (access p ;; ret true) (ret false).

Fixpoint walk_entries (walk : string -> M St (list string)) (dir : string)
    (entries : list Dirent) (out : list string) : M St (list string) :=
  match entries with
  | [] => ret out
  | e :: entries' =>
      let full := Path.join dir (name e) in
      if isDirectory e
      then let* sub := walk full in walk_entries walk dir entries' (out ++ sub)
      else walk_entries walk dir entries' (out ++ [full])
  end.

Fixpoint walk (fuel : nat) (dir : string) : M St (list string) :=
  match fuel with
  | O => out_of_fuel
  | S fuel' =>
      let* entries := readdir dir in
      walk_entries (walk fuel') dir entries []
  end.

Definition optimizeWebp (filePath : string) : M St OptimizeResult :=
  if negb (is_webp filePath) then ret (Unchanged None)
  else
    let* buf := readFile filePath in
    let* img := lift (sharp buf) in
    let* meta :=
      try_catch (let* m := lift (sharp_metadata img) in ret (Some m))
                (ret None) in
    match meta with
    | None => ret (Unchanged (Some "metadata_failed"))
    | Some meta =>
        let width := width_or_0 meta in
        let* pipeline :=
          (let* p0 := lift (sharp buf) in
           let* p1 := lift (sharp_resize (MAX_WIDTH process) p0) in
           lift (sharp_webp (QUALITY process) p1)) in
        let* outBuf := lift (sharp_toBuffer pipeline) in
        let resized := num_gt (Num width) (MAX_WIDTH process) in
        let smaller := buf_length outBuf <? buf_length buf in
        if negb resized && negb smaller
        then ret (Unchanged (Some "already_optimized"))
        else
          let tmp := filePath +:+ ".tmp" in
          writeFile tmp outBuf ;;
          rename tmp filePath ;;
          ret (Changed resized (buf_length buf) (buf_length outBuf) width)
    end.

(** The [for (const f of webps)] loop of [main], with its two counters. *)
Fixpoint main_loop (webps : list string) (changedCount savedBytes : Z)
    : M St (Z * Z) :=
  match webps with
  | [] => ret (changedCount, savedBytes)
  | f :: webps' =>
      let* r := optimizeWebp f in
      match r with
      | Changed _ oldBytes newBytes _ =>
          let changedCount := changedCount + 1 in
          let savedBytes := savedBytes + (oldBytes - newBytes) in
          console_log
            (optimized_line (Path.relative (ROOT process) f) oldBytes newBytes) ;;
          main_loop webps' changedCount savedBytes
      | Unchanged _ => main_loop webps' changedCount savedBytes
      end
  end.

Definition main (fuel : nat) : M St unit :=
  let* found := exists_ (TARGET_DIR process) in
  if negb found
  then console_log (no_dir_line (TARGET_DIR process))
  else
    let* files := walk fuel (TARGET_DIR process) in
    let webps := List.filter is_webp files in
    let* counters := main_loop webps 0 0 in
    console_log (done_line (fst counters) (snd counters)).

(** [main().catch((e) => { console.error(e); process.exit(1); })]: the exit
    status is 0 when [main] resolves and 1 when it rejects; [None] when the
    model ran out of fuel. *)
Definition run (fuel : nat) (w : World St) : option Z * World St :=
  match main fuel w with
  | (Resolved _, w') => (Some 0, w')
  | (Rejected e, w') => (Some 1, console_error e w')
  | (NoFuel, w') => (None, w')
  end.

End Script.

(** ** What a run did: observers used by the statements *)

(** The entries a computation added to the file-system log. *)
Definition new_ops {St} (w w' : World St) : list fs_op :=
  drop (List.length (fs_log w)) (fs_log w').

Definition new_lines {St} (w w' : World St) : list string :=
  drop (List.length (stdout w)) (stdout w').

(** [op] reads, writes, or renames from or onto the file [p]. *)
Definition touches (p : string) (op : fs_op) : Prop :=
  match op with
  | OpReadFile q => q = p
  | OpWriteFile q _ => q = p
  | OpRename src dst => src = p \/ dst = p
  | OpAccess _ | OpReaddir _ => False
  end.

(** The pipeline of [optimizeWebp] on the bytes [buf]:
    [sharp(buf).resize(MAX_WIDTH).webp(QUALITY).toBuffer()]. *)
Definition pipeline_output {Img} `{!SharpLib Img} (process : Process)
    (buf : Buffer) : result Buffer :=
  match sharp buf with
  | Ok p0 =>
      match sharp_resize (MAX_WIDTH process) p0 with
      | Ok p1 =>
          match sharp_webp (QUALITY process) p1 with
          | Ok p2 => sharp_toBuffer p2
          | Err e => Err e
          end
      | Err e => Err e
      end
  | Err e => Err e
  end.

(** A directory listing, the only call [walk] makes. *)
Definition is_listing (op : fs_op) : Prop :=
  match op with
  | OpReaddir _ => True
  | _ => False
  end.

(** [op] is one of the three calls [optimizeWebp] makes for a file [c]
    that passes the filter: the read, the write of the temporary file, or
    the rename, which is made only after a write of the temporary file
    that is in [ops]. *)
Definition rewrite_op (ops : list fs_op) (op : fs_op) : Prop :=
  exists c : string,
    is_webp c = true /\
    (op = OpReadFile c
     \/ (exists outBuf, op = OpWriteFile (c +:+ ".tmp") outBuf)
     \/ (op = OpRename (c +:+ ".tmp") c
         /\ exists outBuf, OpWriteFile (c +:+ ".tmp") outBuf ∈ ops)).

(** The calls [optimizeWebp] can have made for the file [f]: none when [f]
    does not pass the filter; otherwise the read, then possibly the write of
    the temporary file, then possibly the rename. *)
Definition file_ops (f : string) (ops : list fs_op) : Prop :=
  (is_webp f = false /\ ops = [])
  \/ (is_webp f = true /\
      (ops = [OpReadFile f]
       \/ exists outBuf,
            ops = [OpReadFile f; OpWriteFile (f +:+ ".tmp") outBuf]
            \/ ops = [OpReadFile f; OpWriteFile (f +:+ ".tmp") outBuf;
                      OpRename (f +:+ ".tmp") f])).

Section Observers.

Context {St : Type} `{!NodeFs St} {Img : Type} `{!SharpLib Img}.
Variable process : Process.

(** A computation that only lists directories. *)
Definition listing_only {A} (m : M St A) : Prop :=
  forall w r w', m w = (r, w') ->
    store w' = store w /\ stdout w' = stdout w /\ stderr w' = stderr w /\
    exists ops, fs_log w' = fs_log w ++ ops /\ Forall is_listing ops.

(** The world after the read of [f], whatever the read gave. *)
Definition after_read (f : string) (w : World St) : World St :=
  logged (OpReadFile f) (store w) w.

(** The decision of [optimizeWebp]: [resized || smaller]. *)
Definition needs_write (meta : option Metadata) (buf outBuf : Buffer) : bool :=
  num_gt (Num (width_or_0 meta)) (MAX_WIDTH process)
  || (buf_length outBuf <? buf_length buf).

(** The ways through [optimizeWebp filePath], one rule for each: what it
    settles to and the world it leaves, from what the two libraries
    answered.  [optimizeWebp_run] and [run_optimizeWebp] below show that the
    function takes exactly these ways. *)
Inductive optimize_run (f : string) (w : World St)
    : outcome OptimizeResult -> World St -> Prop :=
| run_not_webp :
    is_webp f = false ->
    optimize_run f w (Resolved (Unchanged None)) w
| run_read_failed e :
    is_webp f = true ->
    fs_readFile f (store w) = Err e ->
    optimize_run f w (Rejected e) (after_read f w)
| run_input_failed buf e :
    is_webp f = true ->
    fs_readFile f (store w) = Ok buf ->
    sharp buf = Err e ->
    optimize_run f w (Rejected e) (after_read f w)
| run_metadata_failed buf img e :
    is_webp f = true ->
    fs_readFile f (store w) = Ok buf ->
    sharp buf = Ok img ->
    sharp_metadata img = Err e ->
    optimize_run f w (Resolved (Unchanged (Some "metadata_failed")))
      (after_read f w)
| run_pipeline_failed buf img meta e :
    is_webp f = true ->
    fs_readFile f (store w) = Ok buf ->
    sharp buf = Ok img ->
    sharp_metadata img = Ok meta ->
    pipeline_output process buf = Err e ->
    optimize_run f w (Rejected e) (after_read f w)
| run_already_optimized buf img meta outBuf :
    is_webp f = true ->
    fs_readFile f (store w) = Ok buf ->
    sharp buf = Ok img ->
    sharp_metadata img = Ok meta ->
    pipeline_output process buf = Ok outBuf ->
    needs_write meta buf outBuf = false ->
    optimize_run f w (Resolved (Unchanged (Some "already_optimized")))
      (after_read f w)
| run_write_failed buf img meta outBuf e s1 :
    is_webp f = true ->
    fs_readFile f (store w) = Ok buf ->
    sharp buf = Ok img ->
    sharp_metadata img = Ok meta ->
    pipeline_output process buf = Ok outBuf ->
    needs_write meta buf outBuf = true ->
    fs_writeFile (f +:+ ".tmp") outBuf (store w) = (Err e, s1) ->
    optimize_run f w (Rejected e)
      (logged (OpWriteFile (f +:+ ".tmp") outBuf) s1 (after_read f w))
| run_rename_failed buf img meta outBuf s1 e s2 :
    is_webp f = true ->
    fs_readFile f (store w) = Ok buf ->
    sharp buf = Ok img ->
    sharp_metadata img = Ok meta ->
    pipeline_output process buf = Ok outBuf ->
    needs_write meta buf outBuf = true ->
    fs_writeFile (f +:+ ".tmp") outBuf (store w) = (Ok tt, s1) ->
    fs_rename (f +:+ ".tmp") f s1 = (Err e, s2) ->
    optimize_run f w (Rejected e)
      (logged (OpRename (f +:+ ".tmp") f) s2
         (logged (OpWriteFile (f +:+ ".tmp") outBuf) s1 (after_read f w)))
| run_replaced buf img meta outBuf s1 s2 :
    is_webp f = true ->
    fs_readFile f (store w) = Ok buf ->
    sharp buf = Ok img ->
    sharp_metadata img = Ok meta ->
    pipeline_output process buf = Ok outBuf ->
    needs_write meta buf outBuf = true ->
    fs_writeFile (f +:+ ".tmp") outBuf (store w) = (Ok tt, s1) ->
    fs_rename (f +:+ ".tmp") f s1 = (Ok tt, s2) ->
    optimize_run f w
      (Resolved
         (Changed (num_gt (Num (width_or_0 meta)) (MAX_WIDTH process))
            (buf_length buf) (buf_length outBuf) (width_or_0 meta)))
      (logged (OpRename (f +:+ ".tmp") f) s2
         (logged (OpWriteFile (f +:+ ".tmp") outBuf) s1 (after_read f w))).

(** A failure in the processing of [f] other than [metadata()] throwing:
    the read, the constructor, the pipeline, the write of the temporary
    file or the rename throws [e]. *)
Inductive other_failure (f : string) (w : World St) (e : Error) : Prop :=
| read_fails :
    fs_readFile f (store w) = Err e ->
    other_failure f w e
| input_fails buf :
    fs_readFile f (store w) = Ok buf ->
    sharp buf = Err e ->
    other_failure f w e
| pipeline_fails buf img meta :
    fs_readFile f (store w) = Ok buf ->
    sharp buf = Ok img ->
    sharp_metadata img = Ok meta ->
    pipeline_output process buf = Err e ->
    other_failure f w e
| write_fails buf img meta outBuf s1 :
    fs_readFile f (store w) = Ok buf ->
    sharp buf = Ok img ->
    sharp_metadata img = Ok meta ->
    pipeline_output process buf = Ok outBuf ->
    needs_write meta buf outBuf = true ->
    fs_writeFile (f +:+ ".tmp") outBuf (store w) = (Err e, s1) ->
    other_failure f w e
| rename_fails buf img meta outBuf s1 s2 :
    fs_readFile f (store w) = Ok buf ->
    sharp buf = Ok img ->
    sharp_metadata img = Ok meta ->
    pipeline_output process buf = Ok outBuf ->
    needs_write meta buf outBuf = true ->
    fs_writeFile (f +:+ ".tmp") outBuf (store w) = (Ok tt, s1) ->
    fs_rename (f +:+ ".tmp") f s1 = (Err e, s2) ->
    other_failure f w e.

(** The world the loop of [main] continues in after the file [f] gave [r]. *)
Definition reported (f : string) (r : OptimizeResult) (w : World St)
    : World St :=
  match r with
  | Changed _ oldBytes newBytes _ =>
      snd (console_log
             (optimized_line (Path.relative (ROOT process) f) oldBytes newBytes)
             w)
  | Unchanged _ => w
  end.

(** The per-file results of the loop over [webps] started in [w], in order,
    up to the first file whose processing does not resolve. *)
Fixpoint outcomes (webps : list string) (w : World St)
    : list (string * OptimizeResult) :=
  match webps with
  | [] => []
  | f :: webps' =>
      match optimizeWebp process f w with
      | (Resolved r, w') => (f, r) :: outcomes webps' (reported f r w')
      | _ => []
      end
  end.

End Observers.

(** The changed files among per-file results, with old and new byte counts. *)
Fixpoint changes (rs : list (string * OptimizeResult))
    : list (string * Z * Z) :=
  match rs with
  | [] => []
  | (f, Changed _ oldBytes newBytes _) :: rs' =>
      (f, oldBytes, newBytes) :: changes rs'
  | (_, Unchanged _) :: rs' => changes rs'
  end.

Definition saved_total (cs : list (string * Z * Z)) : Z :=
  foldr (fun c acc => (c.1.2 - c.2) + acc) 0 cs.

Definition report_lines (root : string) (cs : list (string * Z * Z))
    : list string :=
  map (fun c => optimized_line (Path.relative root c.1.1) c.1.2 c.2) cs.

(** The formats as the specification words them, for comparison with
    [optimized_line] and [done_line]. *)
Definition spec_optimized_line (rel : string) (oldBytes newBytes : Z) : string :=
  "optimized: " +:+ rel +:+ " (" +:+ show oldBytes +:+ "->" +:+ show newBytes
    +:+ " bytes)".

Definition spec_done_line (changedCount savedBytes : Z) : string :=
  "Done. changed=" +:+ show changedCount +:+ ", saved=" +:+ show savedBytes.

(** ** A concrete file system: a finite map from paths to nodes *)

Module Posix.

Inductive node :=
| File (data : Buffer)
| Dir.

#[global] Instance node_eq_dec : EqDecision node.
Proof. solve_decision. Defined.

Abbreviation disk := (gmap string node).

Definition is_dir (n : node) : bool :=
  match n with
  | Dir => true
  | File _ => false
  end.

Fixpoint has_slash (s : string) : bool :=
  match s with
  | EmptyString => false
  | String c s' => Ascii.eqb c "/" || has_slash s'
  end.

(** The name under which the path [q] is listed in [dir], if it is one of
    its entries. *)
Definition child_name (dir q : string) : option string :=
  match Path.strip_prefix (Path.dir_prefix dir) q with
  | Some nm => if String.eqb nm "" || has_slash nm then None else Some nm
  | None => None
  end.

(** The entries of [dir], unordered: one for each path of [d] that is a
    child of [dir]. *)
Definition children_of (dir : string) (d : disk) : list Dirent :=
  omap (fun qn : string * node =>
          match child_name dir qn.1 with
          | Some nm => Some {| name := nm; isDirectory := is_dir qn.2 |}
          | None => None
          end)
       (map_to_list d).

(** [a] is listed before [b]: [readdir] gives the entries sorted by name,
    byte by byte (libuv's [scandir] sorts them with [strcmp]). *)
Definition name_le (a b : Dirent) : Prop :=
  Is_true (String.leb (name a) (name b)).

#[global] Instance name_le_dec (a b : Dirent) : Decision (name_le a b).
Proof. unfold name_le. apply _. Defined.

Definition entries_of (dir : string) (d : disk) : list Dirent :=
  merge_sort name_le (children_of dir d).

Definition access (p : string) (d : disk) : result unit :=
  match d !! p with
  | Some _ => Ok tt
  | None => Err "ENOENT"
  end.

Definition readdir (p : string) (d : disk) : result (list Dirent) :=
  match d !! p with
  | Some Dir => Ok (entries_of p d)
  | Some (File _) => Err "ENOTDIR"
  | None => Err "ENOENT"
  end.

Definition readFile (p : string) (d : disk) : result Buffer :=
  match d !! p with
  | Some (File data) => Ok data
  | Some Dir => Err "EISDIR"
  | None => Err "ENOENT"
  end.

(** Writing creates the file or replaces its content.  (The parent
    directory is not looked up: the script writes next to a file it has
    just read.) *)
Definition writeFile (p : string) (data : Buffer) (d : disk)
    : result unit * disk :=
  match d !! p with
  | Some Dir => (Err "EISDIR", d)
  | _ => (Ok tt, <[p := File data]> d)
  end.

(** Renaming a regular file replaces the destination and removes the
    source.  (Moving a directory is not modelled: the script renames only
    the file it has just written.) *)
Definition rename (src dst : string) (d : disk) : result unit * disk :=
  match d !! src with
  | Some (File data) =>
      match d !! dst with
      | Some Dir => (Err "EISDIR", d)
      | _ => (Ok tt, <[dst := File data]> (delete src d))
      end
  | Some Dir => (Err "ENOTSUP", d)
  | None => (Err "ENOENT", d)
  end.

#[global] Instance fs : NodeFs disk := {|
  fs_access := access;
  fs_readdir := readdir;
  fs_readFile := readFile;
  fs_writeFile := writeFile;
  fs_rename := rename;
|}.

(** Fuel that lets [walk] reach every directory of [d]: paths grow with
    every level, and no path of [d] is longer than this. *)
Definition depth_bound (d : disk) : nat :=
  S (map_fold (fun p _ acc => String.length p `max` acc)%nat 0%nat d).

Definition start (d : disk) : World disk :=
  {| store := d; fs_log := []; stdout := []; stderr := [] |}.

(** A plain entry name: what [readdir] lists ([child_name] accepts no
    other). *)
Definition plain_name (nm : string) : Prop :=
  nm <> "" /\ has_slash nm = false.

(** The regular files below the directory [dir] of [d]: the files listed
    in [dir], and the files below the directories listed in [dir]. *)
Inductive below (d : disk) : string -> string -> Prop :=
| below_file dir nm data :
    plain_name nm ->
    d !! Path.join dir nm = Some (File data) ->
    below d dir (Path.join dir nm)
| below_dir dir nm p :
    plain_name nm ->
    d !! Path.join dir nm = Some Dir ->
    below d (Path.join dir nm) p ->
    below d dir p.

(** The path [p] is the entry [nm] of [dir], or lies further down under
    it. *)
Definition within (dir nm p : string) : Prop :=
  exists t, p = Path.join dir nm +:+ t /\ (t = "" \/ exists r, t = "/" +:+ r).

End Posix.

(** ** A table-driven image library

    The handle remembers the input and the options given so far; the
    constructor and the two option setters validate their arguments as
    [sharp] does (no empty input, a positive width, a quality from 1 to
    100).  What [metadata()] and [toBuffer()] give is read off a toy
    format: the first byte of an image is its width in units of 100
    pixels, [x00] is an unreadable header and [xff] a header without
    width; the encoder writes the (possibly reduced) width byte followed by
    one byte for every 40 points of quality. *)

Module Stub.

Record Image := {
  input : Buffer;
  resize_width : option Z;
  webp_quality : option Z;
}.

Definition create (buf : Buffer) : result Image :=
  match buf with
  | [] => Err "Input Buffer is empty"
  | _ => Ok {| input := buf; resize_width := None; webp_quality := None |}
  end.

Definition header_width (b : Byte.byte) : Z := 100 * Z.of_N (Byte.to_N b).

Definition metadata (img : Image) : result (option Metadata) :=
  match input img with
  | Byte.x00 :: _ => Err "Input buffer contains unsupported image format"
  | Byte.xff :: _ => Ok (Some {| width := None |})
  | b :: _ => Ok (Some {| width := Some (header_width b) |})
  | [] => Err "Input Buffer is empty"
  end.

Definition resize (n : number) (img : Image) : result Image :=
  match n with
  | Num z =>
      if 0 <? z
      then Ok {| input := input img; resize_width := Some z;
                 webp_quality := webp_quality img |}
      else Err "Expected positive integer for width"
  | NaN => Err "Expected positive integer for width"
  end.

Definition webp (n : number) (img : Image) : result Image :=
  match n with
  | Num z =>
      if (1 <=? z) && (z <=? 100)
      then Ok {| input := input img; resize_width := resize_width img;
                 webp_quality := Some z |}
      else Err "Expected integer between 1 and 100 for quality"
  | NaN => Err "Expected integer between 1 and 100 for quality"
  end.

Definition width_byte (z : Z) : Byte.byte :=
  default Byte.xfe (Byte.of_N (Z.to_N (z / 100))).

Definition payload (img : Image) : Buffer :=
  replicate (Z.to_nat (default 80 (webp_quality img) / 40)) Byte.x2a.

Definition toBuffer (img : Image) : result Buffer :=
  match input img with
  | Byte.x00 :: _ => Err "Input buffer contains unsupported image format"
  | Byte.xff :: _ => Ok (Byte.xff :: payload img)
  | b :: _ =>
      let head :=
        match resize_width img with
        | Some wmax =>
            if wmax <? header_width b then width_byte wmax else b
        | None => b
        end in
      Ok (head :: payload img)
  | [] => Err "Input Buffer is empty"
  end.

#[global] Instance lib : SharpLib Image := {|
  sharp := create;
  sharp_metadata := metadata;
  sharp_resize := resize;
  sharp_webp := webp;
  sharp_toBuffer := toBuffer;
|}.

End Stub.

(** ** Example runs *)

Module Examples.

Import Posix.

Definition proc (vars : list (string * string)) : Process :=
  {| cwd := "/site"; env := list_to_map vars |}.

Definition defaults : Process := proc [].

(** An image of width [100 * w] pixels stored in [1 + n] bytes. *)
Definition image (w : Byte.byte) (n : nat) : Buffer := w :: replicate n Byte.x07.

(** [logo.WEBP] is 800 pixels wide and shrinks from 6 to 3 bytes;
    [hero.webp] is 3000 pixels wide and grows from 2 to 3 bytes;
    [icon.webp] is 800 pixels wide and already 3 bytes;
    [broken.webp] has an unreadable header; [notes.txt] is no image. *)
Definition site : disk :=
  list_to_map
    [ ("/site/images", Dir);
      ("/site/images/logo.WEBP", File (image Byte.x08 5));
      ("/site/images/notes.txt", File [Byte.x68; Byte.x69]);
      ("/site/images/sub", Dir);
      ("/site/images/sub/hero.webp", File (image Byte.x1e 1));
      ("/site/images/sub/icon.webp", File (image Byte.x08 2));
      ("/site/images/sub/broken.webp", File (image Byte.x00 4)) ].

(** A site as an interrupted run can leave it: stale temporary files sit
    next to [logo.webp], which still shrinks, and next to [icon.webp],
    which is already optimized. *)
Definition stale : disk :=
  list_to_map
    [ ("/site/images", Dir);
      ("/site/images/logo.webp", File (image Byte.x08 5));
      ("/site/images/logo.webp.tmp", File [Byte.x01]);
      ("/site/images/icon.webp", File (image Byte.x08 2));
      ("/site/images/icon.webp.tmp", File [Byte.x02]) ].

(** A single wide image whose re-encoding is larger than the original. *)
Definition wide : disk :=
  list_to_map
    [ ("/site/images", Dir);
      ("/site/images/hero.webp", File (image Byte.x1e 1)) ].

(** A directory occupies the temporary path of [banner.webp], the first
    file of the walk. *)
Definition blocked : disk :=
  list_to_map
    [ ("/site/images", Dir);
      ("/site/images/banner.webp", File (image Byte.x08 5));
      ("/site/images/banner.webp.tmp", Dir);
      ("/site/images/logo.webp", File (image Byte.x08 5)) ].

(** [images] is a regular file, not a directory. *)
Definition no_directory : disk :=
  list_to_map [ ("/site/images", File [Byte.x68; Byte.x69]) ].

(** A directory without any image. *)
Definition no_images : disk :=
  list_to_map
    [ ("/site/images", Dir);
      ("/site/images/notes.txt", File [Byte.x68; Byte.x69]);
      ("/site/images/logo.webp.tmp", File [Byte.x01]) ].

Definition go (process : Process) (d : disk) : option Z * World disk :=
  run (Img := Stub.Image) process (depth_bound d) (start d).

End Examples.

(** * Properties *)

(** ** Strings *)

Section Strings.

Lemma app_cons (c : ascii) (a b : string) :
  String c a +:+ b = String c (a +:+ b).
Proof. reflexivity. Qed.

Lemma app_empty (b : string) : "" +:+ b = b.
Proof. reflexivity. Qed.

Lemma endsWith_refl (s : string) : endsWith s s = true.
Proof. destruct s; cbn [endsWith]; rewrite String.eqb_refl; reflexivity. Qed.

Lemma endsWith_app (pre suffix : string) : endsWith (pre +:+ suffix) suffix = true.
Proof.
  induction pre as [|c pre IH].
  - apply endsWith_refl.
  - rewrite app_cons. cbn [endsWith]. rewrite IH. apply orb_true_r.
Qed.

Lemma endsWith_inv (s suffix : string) :
  endsWith s suffix = true -> exists pre, s = pre +:+ suffix.
Proof.
  induction s as [|c s IH]; cbn [endsWith]; intros H.
  - apply orb_true_iff in H as [H|H]; [|discriminate].
    apply String.eqb_eq in H. exists "". by subst.
  - apply orb_true_iff in H as [H|H].
    + apply String.eqb_eq in H. exists "". by subst.
    + destruct (IH H) as [pre ->]. by exists (String c pre).
Qed.

Lemma endsWith_spec (s suffix : string) :
  endsWith s suffix = true <-> exists pre, s = pre +:+ suffix.
Proof.
  split; [apply endsWith_inv|]. intros [pre ->]. apply endsWith_app.
Qed.

Lemma toLowerCase_app (a b : string) :
  toLowerCase (a +:+ b) = toLowerCase a +:+ toLowerCase b.
Proof.
  induction a as [|c a IH]; [done|].
  rewrite app_cons. simpl. rewrite app_cons. by f_equal.
Qed.

Lemma chars_app (a b : string) :
  list_ascii_of_string (a +:+ b)
  = (list_ascii_of_string a ++ list_ascii_of_string b)%list.
Proof.
  induction a as [|c a IH]; [done|]. rewrite app_cons. simpl. by f_equal.
Qed.

Lemma length_app (a b : string) :
  String.length (a +:+ b) = (String.length a + String.length b)%nat.
Proof.
  induction a as [|c a IH]; [done|]. rewrite app_cons. simpl. by f_equal.
Qed.

(** No string ends both in [.tmp] and in [.webp]. *)
Lemma tmp_webp_apart (a b : string) : a +:+ ".tmp" <> b +:+ ".webp".
Proof.
  intros H. apply (f_equal list_ascii_of_string) in H.
  rewrite !chars_app in H. simpl in H.
  change (list_ascii_of_string b ++ ["."; "w"; "e"; "b"; "p"]%char)%list
    with (list_ascii_of_string b ++ ["."%char] ++ ["w"; "e"; "b"; "p"]%char)%list
    in H.
  rewrite (assoc_L app) in H.
  apply app_inj_2 in H as [_ H]; [discriminate|done].
Qed.

Lemma is_webp_tmp (f : string) : is_webp (f +:+ ".tmp") = false.
Proof.
  unfold is_webp. destruct (endsWith _ _) eqn:H; [|done].
  apply endsWith_inv in H as [pre H]. rewrite toLowerCase_app in H.
  by apply tmp_webp_apart in H.
Qed.

Lemma is_webp_not_tmp (f : string) : is_webp f = true -> endsWith f ".tmp" = false.
Proof.
  intros Hw. destruct (endsWith f ".tmp") eqn:H; [|done].
  apply endsWith_inv in H as [pre ->]. by rewrite is_webp_tmp in Hw.
Qed.

Lemma tmp_neq (f : string) : f +:+ ".tmp" <> f.
Proof.
  intros H. apply (f_equal String.length) in H. rewrite length_app in H.
  simpl in H. lia.
Qed.

End Strings.

(** ** The per-file operation *)

Section PerFile.

Context {St : Type} `{!NodeFs St} {Img : Type} `{!SharpLib Img}.
Variable process : Process.

Lemma exists_eq (p : string) (w : World St) :
  exists_ p w =
  (Resolved (match fs_access p (store w) with Ok _ => true | Err _ => false end),
   logged (OpAccess p) (store w) w).
Proof.
  unfold exists_, try_catch, bind, access, lift, ret.
  destruct (fs_access p (store w)); reflexivity.
Qed.

Ltac unfold_script :=
  unfold bind, try_catch, readFile, writeFile, rename, lift, ret; cbv beta.

(** [optimizeWebp] with the monad unfolded: a cascade over the answers of
    the two libraries. *)
Lemma optimizeWebp_eq (f : string) (w : World St) :
  optimizeWebp process f w =
  if negb (is_webp f) then (Resolved (Unchanged None), w)
  else
    match fs_readFile f (store w) with
    | Err e => (Rejected e, after_read f w)
    | Ok buf =>
        match sharp buf with
        | Err e => (Rejected e, after_read f w)
        | Ok img =>
            match sharp_metadata img with
            | Err _ =>
                (Resolved (Unchanged (Some "metadata_failed")), after_read f w)
            | Ok meta =>
                match pipeline_output process buf with
                | Err e => (Rejected e, after_read f w)
                | Ok outBuf =>
                    if needs_write process meta buf outBuf
                    then
                      (writeFile (f +:+ ".tmp") outBuf ;;
                       rename (f +:+ ".tmp") f ;;
                       ret (Changed
                              (num_gt (Num (width_or_0 meta))
                                      (MAX_WIDTH process))
                              (buf_length buf) (buf_length outBuf)
                              (width_or_0 meta))) (after_read f w)
                    else
                      (Resolved (Unchanged (Some "already_optimized")),
                       after_read f w)
                end
            end
        end
    end.
Proof.
  unfold optimizeWebp, pipeline_output, needs_write, after_read.
  destruct (negb (is_webp f)); [reflexivity|].
  unfold bind, try_catch, readFile, lift, ret; cbv beta.
  destruct (fs_readFile f (store w)) as [buf|e]; [|reflexivity].
  destruct (sharp buf) as [img|e]; [|reflexivity].
  destruct (sharp_metadata img) as [meta|e]; [|reflexivity].
  destruct (sharp_resize (MAX_WIDTH process) img) as [p1|e]; [|reflexivity].
  destruct (sharp_webp (QUALITY process) p1) as [p2|e]; [|reflexivity].
  destruct (sharp_toBuffer p2) as [outBuf|e]; [|reflexivity].
  destruct (num_gt _ _), (_ <? _); reflexivity.
Qed.

(** The replacement itself, by what [writeFile] and [rename] answer. *)
Lemma replace_eq {A} (f : string) (outBuf : Buffer) (a : A) (w : World St) :
  (writeFile (f +:+ ".tmp") outBuf ;; rename (f +:+ ".tmp") f ;; ret a) w =
  match fs_writeFile (f +:+ ".tmp") outBuf (store w) with
  | (Err e, s1) => (Rejected e, logged (OpWriteFile (f +:+ ".tmp") outBuf) s1 w)
  | (Ok _, s1) =>
      match fs_rename (f +:+ ".tmp") f s1 with
      | (Err e, s2) =>
          (Rejected e,
           logged (OpRename (f +:+ ".tmp") f) s2
             (logged (OpWriteFile (f +:+ ".tmp") outBuf) s1 w))
      | (Ok _, s2) =>
          (Resolved a,
           logged (OpRename (f +:+ ".tmp") f) s2
             (logged (OpWriteFile (f +:+ ".tmp") outBuf) s1 w))
      end
  end.
Proof.
  unfold_script.
  destruct (fs_writeFile _ _ _) as [[?|e] s1]; simpl; [|reflexivity].
  destruct (fs_rename _ _ _) as [[?|e] s2]; reflexivity.
Qed.

(** [optimizeWebp] takes one of the ways of [optimize_run]. *)
Lemma optimizeWebp_run (f : string) (w : World St) :
  optimize_run process f w
    (optimizeWebp process f w).1 (optimizeWebp process f w).2.
Proof.
  rewrite optimizeWebp_eq.
  destruct (is_webp f) eqn:Hf; cbn [negb]; [|by apply run_not_webp].
  destruct (fs_readFile f (store w)) as [buf|e] eqn:Hread;
    [|by eapply run_read_failed].
  destruct (sharp buf) as [img|e] eqn:Hsharp;
    [|by eapply run_input_failed].
  destruct (sharp_metadata img) as [meta|e] eqn:Hmeta;
    [|by eapply run_metadata_failed].
  destruct (pipeline_output process buf) as [outBuf|e] eqn:Hpipe;
    [|by eapply run_pipeline_failed].
  destruct (needs_write process meta buf outBuf) eqn:Hneed;
    [|by eapply run_already_optimized].
  rewrite replace_eq. change (store (after_read f w)) with (store w).
  destruct (fs_writeFile (f +:+ ".tmp") outBuf (store w))
    as [[[]|e] s1] eqn:Hw; [|by eapply run_write_failed].
  destruct (fs_rename (f +:+ ".tmp") f s1) as [[[]|e] s2] eqn:Hr.
  - by eapply run_replaced.
  - by eapply run_rename_failed.
Qed.

Lemma optimizeWebp_inv (f : string) (w w' : World St)
    (r : outcome OptimizeResult) :
  optimizeWebp process f w = (r, w') -> optimize_run process f w r w'.
Proof.
  intros H. pose proof (optimizeWebp_run f w) as Hrun.
  by rewrite H in Hrun.
Qed.

(** Conversely, each way of [optimize_run] is what [optimizeWebp] does. *)
Lemma run_optimizeWebp (f : string) (w w' : World St)
    (r : outcome OptimizeResult) :
  optimize_run process f w r w' -> optimizeWebp process f w = (r, w').
Proof.
  intros Hrun. rewrite optimizeWebp_eq.
  destruct Hrun;
    repeat match goal with
           | H : ?x = _ |- context [?x] => rewrite H; cbn [negb]
           end;
    rewrite ?replace_eq; change (store (after_read f w)) with (store w);
    repeat match goal with
           | H : ?x = _ |- context [?x] => rewrite H
           end;
    reflexivity.
Qed.

End PerFile.

(** ** The directory walk and the loop of [main] *)

Section Driver.

Context {St : Type} `{!NodeFs St} {Img : Type} `{!SharpLib Img}.
Variable process : Process.

Lemma listing_only_ret {A} (a : A) : listing_only (ret a : M St A).
Proof.
  intros w r w' [= <- <-]. repeat split. exists []. by rewrite app_nil_r.
Qed.

Lemma listing_only_bind {A B} (m : M St A) (k : A -> M St B) :
  listing_only m -> (forall a, listing_only (k a)) -> listing_only (bind m k).
Proof.
  intros Hm Hk w r w'. unfold bind.
  destruct (m w) as [[a|e|] w1] eqn:Em; intros Hr.
  - destruct (Hm _ _ _ Em) as (E1 & E2 & E3 & ops1 & E4 & H1).
    destruct (Hk a _ _ _ Hr) as (F1 & F2 & F3 & ops2 & F4 & H2).
    split; [congruence|]. split; [congruence|]. split; [congruence|].
    exists (ops1 ++ ops2). split; [by rewrite F4, E4, app_assoc|].
    by apply Forall_app.
  - injection Hr as <- <-. by apply Hm in Em.
  - injection Hr as <- <-. by apply Hm in Em.
Qed.

Lemma listing_only_readdir (dir : string) : listing_only (readdir dir).
Proof.
  intros w r w'. unfold readdir, lift.
  destruct (fs_readdir dir (store w)); intros [= <- <-];
    (repeat split; exists [OpReaddir dir]; split; [done|by constructor]).
Qed.

Lemma listing_only_walk_entries (rec : string -> M St (list string))
    (dir : string) (entries : list Dirent) (out : list string) :
  (forall d, listing_only (rec d)) ->
  listing_only (walk_entries rec dir entries out).
Proof.
  intros Hrec. revert out.
  induction entries as [|e entries IH]; intros out; simpl.
  - apply listing_only_ret.
  - destruct (isDirectory e); [|apply IH].
    apply listing_only_bind; [apply Hrec|]. intros sub. apply IH.
Qed.

Lemma listing_only_walk (fuel : nat) (dir : string) :
  listing_only (walk fuel dir).
Proof.
  revert dir. induction fuel as [|fuel IH]; intros dir; simpl.
  - intros w r w' [= <- <-]. repeat split. exists []. by rewrite app_nil_r.
  - apply listing_only_bind; [apply listing_only_readdir|].
    intros entries. by apply listing_only_walk_entries.
Qed.

Lemma optimize_run_frame (f : string) (w w' : World St)
    (r : outcome OptimizeResult) :
  optimize_run process f w r w' ->
  stdout w' = stdout w /\ stderr w' = stderr w /\ r <> NoFuel /\
  exists ops, fs_log w' = fs_log w ++ ops /\ file_ops f ops.
Proof.
  intros Hrun. unfold file_ops.
  destruct Hrun; (split; [done|]); (split; [done|]); (split; [done|]).
  1: exists []; rewrite app_nil_r; by auto.
  1-5: exists [OpReadFile f]; by auto.
  - exists [OpReadFile f; OpWriteFile (f +:+ ".tmp") outBuf].
    simpl. rewrite <- app_assoc. eauto 10.
  - exists [OpReadFile f; OpWriteFile (f +:+ ".tmp") outBuf;
            OpRename (f +:+ ".tmp") f].
    simpl. rewrite <- !app_assoc. eauto 10.
  - exists [OpReadFile f; OpWriteFile (f +:+ ".tmp") outBuf;
            OpRename (f +:+ ".tmp") f].
    simpl. rewrite <- !app_assoc. eauto 10.
Qed.

Lemma main_loop_cons (f : string) (webps : list string)
    (changedCount savedBytes : Z) (w : World St) :
  main_loop process (f :: webps) changedCount savedBytes w =
  match optimizeWebp process f w with
  | (Resolved (Changed rs oldBytes newBytes wd), w1) =>
      main_loop process webps (changedCount + 1)
        (savedBytes + (oldBytes - newBytes))
        (reported process f (Changed rs oldBytes newBytes wd) w1)
  | (Resolved (Unchanged reason), w1) =>
      main_loop process webps changedCount savedBytes w1
  | (Rejected e, w1) => (Rejected e, w1)
  | (NoFuel, w1) => (NoFuel, w1)
  end.
Proof.
  simpl. unfold bind at 1.
  destruct (optimizeWebp process f w) as [[[reason|rs o n wd]|e|] w1];
    reflexivity.
Qed.

(** What the loop prints and counts, in terms of the per-file results. *)
Lemma main_loop_sound (webps : list string) (changedCount savedBytes : Z)
    (w w' : World St) (r : outcome (Z * Z)) :
  main_loop process webps changedCount savedBytes w = (r, w') ->
  let cs := changes (outcomes process webps w) in
  stdout w' = stdout w ++ report_lines (ROOT process) cs /\
  stderr w' = stderr w /\
  match r with
  | Resolved (n, saved) =>
      map fst (outcomes process webps w) = webps /\
      n = changedCount + Z.of_nat (List.length cs) /\
      saved = savedBytes + saved_total cs
  | Rejected _ => True
  | NoFuel => False
  end.
Proof.
  revert changedCount savedBytes w.
  induction webps as [|f webps IH]; intros c s w.
  - simpl. intros [= <- <-]. rewrite app_nil_r. repeat split; lia.
  - rewrite main_loop_cons. cbn [outcomes].
    destruct (optimizeWebp process f w) as [[[reason|rs o n wd]|e|] w1] eqn:E;
      apply optimizeWebp_inv, optimize_run_frame in E
        as (Eout & Eerr & Hfuel & _);
      [| |intros [= <- <-]; simpl; by rewrite app_nil_r|done].
    + intros Hloop. apply IH in Hloop as (Hout & Herr & Hr). cbn [reported] in *.
      cbn [changes]. rewrite Hout, Herr, Eout, Eerr. do 2 (split; [done|]).
      destruct r as [[n' s']| |]; [|done..].
      destruct Hr as (Hm & -> & ->). cbn [map fst]. by rewrite Hm.
    + intros Hloop. apply IH in Hloop as (Hout & Herr & Hr).
      set (w2 := reported process f (Changed rs o n wd) w1) in *.
      assert (Hw2 : stdout w2 = stdout w ++
                [optimized_line (Path.relative (ROOT process) f) o n])
        by (subst w2; simpl; by rewrite Eout).
      assert (Hw2e : stderr w2 = stderr w) by (subst w2; simpl; done).
      cbn [changes length]. unfold report_lines in *. cbn [map fst snd].
      rewrite Hout, Herr, Hw2, Hw2e, <- app_assoc. do 2 (split; [done|]).
      destruct r as [[n' s']| |]; [|done..].
      destruct Hr as (Hm & -> & ->). unfold saved_total.
      cbn [foldr map fst snd]. rewrite Hm. repeat split; lia.
Qed.

Lemma main_loop_app (pre rest : list string) (changedCount savedBytes : Z)
    (w : World St) :
  main_loop process (pre ++ rest) changedCount savedBytes w =
  match main_loop process pre changedCount savedBytes w with
  | (Resolved (n, saved), w1) => main_loop process rest n saved w1
  | (Rejected e, w1) => (Rejected e, w1)
  | (NoFuel, w1) => (NoFuel, w1)
  end.
Proof.
  revert changedCount savedBytes w.
  induction pre as [|f pre IH]; intros c s w; [reflexivity|].
  rewrite <- app_comm_cons, !main_loop_cons.
  destruct (optimizeWebp process f w) as [[[reason|rs o n wd]|e|] w1];
    [apply IH|apply IH|reflexivity|reflexivity].
Qed.

(** When every file resolves, so does the loop. *)
Lemma main_loop_complete (webps : list string) (changedCount savedBytes : Z)
    (w : World St) :
  map fst (outcomes process webps w) = webps ->
  exists n saved w',
    main_loop process webps changedCount savedBytes w
    = (Resolved (n, saved), w').
Proof.
  revert changedCount savedBytes w.
  induction webps as [|f webps IH]; intros c s w; [by eexists _, _, _|].
  rewrite main_loop_cons. cbn [outcomes].
  destruct (optimizeWebp process f w) as [[[reason|rs o n wd]|e|] w1];
    [| |done..]; cbn [map fst]; intros [= Hm]; by apply IH.
Qed.

Lemma rewrite_op_app_l (ops0 ops : list fs_op) (op : fs_op) :
  rewrite_op ops op -> rewrite_op (ops0 ++ ops) op.
Proof.
  intros (c & Hc & [?|[?|[? [outBuf Hin]]]]); exists c; (split; [done|]); auto.
  right; right. split; [done|]. exists outBuf. rewrite elem_of_app. auto.
Qed.

Lemma rewrite_op_app_r (ops ops1 : list fs_op) (op : fs_op) :
  rewrite_op ops op -> rewrite_op (ops ++ ops1) op.
Proof.
  intros (c & Hc & [?|[?|[? [outBuf Hin]]]]); exists c; (split; [done|]); auto.
  right; right. split; [done|]. exists outBuf. rewrite elem_of_app. auto.
Qed.

Lemma file_ops_rewrite (f : string) (ops : list fs_op) :
  file_ops f ops -> Forall (rewrite_op ops) ops.
Proof.
  intros [[_ ->]|[Hf [->|[outBuf [->| ->]]]]]; [constructor|..];
    repeat apply Forall_cons_2; try apply Forall_nil_2;
    (exists f; split; [done|]); eauto.
  right; right. split; [done|]. exists outBuf.
  apply elem_of_cons; right. apply elem_of_cons; by left.
Qed.

(** Every file-system call of the loop is a call for a candidate, and a
    rename follows the write of its temporary file. *)
Lemma main_loop_rewrite_ops (webps : list string)
    (changedCount savedBytes : Z) (w w' : World St) (r : outcome (Z * Z)) :
  main_loop process webps changedCount savedBytes w = (r, w') ->
  exists ops, fs_log w' = fs_log w ++ ops /\ Forall (rewrite_op ops) ops.
Proof.
  revert changedCount savedBytes w.
  induction webps as [|f webps IH]; intros c s w.
  - intros [= <- <-]. exists []. by rewrite app_nil_r.
  - rewrite main_loop_cons.
    destruct (optimizeWebp process f w) as [[[reason|rs o n wd]|e|] w1] eqn:E;
      apply optimizeWebp_inv, optimize_run_frame in E
        as (_ & _ & Hfuel & ops1 & Hlog & Hops);
      apply file_ops_rewrite in Hops.
    + intros (ops2 & Hlog2 & Hops2)%IH. exists (ops1 ++ ops2).
      split; [by rewrite Hlog2, Hlog, app_assoc|]. apply Forall_app. split.
      * eapply Forall_impl; [exact Hops|]. intros; by apply rewrite_op_app_r.
      * eapply Forall_impl; [exact Hops2|]. intros; by apply rewrite_op_app_l.
    + intros (ops2 & Hlog2 & Hops2)%IH. exists (ops1 ++ ops2).
      split; [by rewrite Hlog2; simpl; rewrite Hlog, app_assoc|].
      apply Forall_app. split.
      * eapply Forall_impl; [exact Hops|]. intros; by apply rewrite_op_app_r.
      * eapply Forall_impl; [exact Hops2|]. intros; by apply rewrite_op_app_l.
    + intros [= <- <-]. by exists ops1.
    + done.
Qed.

(** [main] with the monad unfolded. *)
Lemma main_eq (fuel : nat) (w : World St) :
  let w0 := logged (OpAccess (TARGET_DIR process)) (store w) w in
  main process fuel w =
  match fs_access (TARGET_DIR process) (store w) with
  | Err _ => console_log (no_dir_line (TARGET_DIR process)) w0
  | Ok _ =>
      match walk fuel (TARGET_DIR process) w0 with
      | (Resolved files, w1) =>
          match main_loop process (List.filter is_webp files) 0 0 w1 with
          | (Resolved (n, saved), w2) => console_log (done_line n saved) w2
          | (Rejected e, w2) => (Rejected e, w2)
          | (NoFuel, w2) => (NoFuel, w2)
          end
      | (Rejected e, w1) => (Rejected e, w1)
      | (NoFuel, w1) => (NoFuel, w1)
      end
  end.
Proof.
  intros w0. unfold main. unfold bind at 1. rewrite exists_eq. fold w0.
  destruct (fs_access _ _); cbn [negb]; [|reflexivity].
  unfold bind at 1.
  destruct (walk fuel _ w0) as [[files|e|] w1]; [|reflexivity..].
  unfold bind at 1.
  destruct (main_loop _ _ _ _ w1) as [[[n saved]|e|] w2]; reflexivity.
Qed.

(** Fuel only has to be enough: a walk that came back comes back the same
    with more. *)
Lemma walk_entries_mono (rec rec' : string -> M St (list string))
    (dir : string) (entries : list Dirent) (out : list string)
    (w w' : World St) (r : outcome (list string)) :
  (forall d v r1 v', rec d v = (r1, v') -> r1 <> NoFuel -> rec' d v = (r1, v')) ->
  walk_entries rec dir entries out w = (r, w') -> r <> NoFuel ->
  walk_entries rec' dir entries out w = (r, w').
Proof.
  intros Hrec. revert out w.
  induction entries as [|e entries IH]; intros out w; simpl; [done|].
  destruct (isDirectory e); [|apply IH].
  unfold bind.
  destruct (rec (Path.join dir (name e)) w) as [[sub|err|] w1] eqn:E.
  - rewrite (Hrec _ _ _ _ E) by done. apply IH.
  - rewrite (Hrec _ _ _ _ E) by done. done.
  - by intros [= <- <-].
Qed.

Lemma walk_fuel_mono (fuel fuel' : nat) (dir : string) (w w' : World St)
    (r : outcome (list string)) :
  walk fuel dir w = (r, w') -> r <> NoFuel -> (fuel <= fuel')%nat ->
  walk fuel' dir w = (r, w').
Proof.
  revert fuel' dir w w' r.
  induction fuel as [|fuel IH]; intros fuel' dir w w' r.
  - simpl. by intros [= <- <-].
  - intros Hwalk Hr Hle. destruct fuel' as [|fuel']; [lia|].
    simpl in *. unfold bind in *.
    destruct (readdir dir w) as [[entries|err|] w0]; [|done..].
    eapply walk_entries_mono; [|exact Hwalk|exact Hr].
    intros d v r1 v' Hd Hr1. eapply IH; [exact Hd|exact Hr1|lia].
Qed.

End Driver.

(** ** The concrete store *)

Module PosixFacts.

Lemma strip_prefix_spec (pre s rest : string) :
  Path.strip_prefix pre s = Some rest -> s = pre +:+ rest.
Proof.
  revert s. induction pre as [|a pre IH]; intros s; simpl.
  - by intros [= ->].
  - destruct s as [|b s]; [done|].
    destruct (Ascii.eqb a b) eqn:E; [|done].
    apply Ascii.eqb_eq in E as ->. intros Hs%IH. rewrite app_cons. by f_equal.
Qed.

Lemma child_name_join (dir q nm : string) :
  Posix.child_name dir q = Some nm -> q = Path.join dir nm /\ nm <> "".
Proof.
  unfold Posix.child_name, Path.join.
  destruct (Path.strip_prefix _ q) as [rest|] eqn:E; [|done].
  apply strip_prefix_spec in E as ->.
  destruct (String.eqb rest "") eqn:Hrest; [done|].
  destruct (Posix.has_slash rest); [done|]. intros [= ->].
  split; [done|]. by apply String.eqb_neq.
Qed.

Lemma length_join (dir nm : string) :
  nm <> "" -> (String.length dir < String.length (Path.join dir nm))%nat.
Proof.
  intros Hnm. unfold Path.join, Path.dir_prefix.
  assert (0 < String.length nm)%nat by (destruct nm; [done|simpl; lia]).
  destruct (endsWith dir "/"); rewrite !length_app; simpl; lia.
Qed.

Lemma path_length_bound (d : Posix.disk) (q : string) (n : Posix.node) :
  d !! q = Some n -> (String.length q < Posix.depth_bound d)%nat.
Proof.
  unfold Posix.depth_bound. revert q n.
  apply (map_fold_weak_ind
           (fun r (m : Posix.disk) =>
              forall q n, m !! q = Some n -> (String.length q < S r)%nat)).
  - intros q n. by rewrite lookup_empty.
  - intros i x m r Hi IH q n. rewrite lookup_insert.
    case_decide as Hq.
    + subst. intros _. lia.
    + intros Hm%IH. lia.
Qed.

Lemma entries_of_spec (dir : string) (d : Posix.disk) (e : Dirent) :
  e ∈ Posix.entries_of dir d ->
  exists n, d !! Path.join dir (name e) = Some n /\
            isDirectory e = Posix.is_dir n /\ name e <> "".
Proof.
  unfold Posix.entries_of. rewrite merge_sort_Permutation.
  unfold Posix.children_of. rewrite list_elem_of_omap.
  intros ([q n] & Hin & He). apply elem_of_map_to_list in Hin.
  simpl in He. destruct (Posix.child_name dir q) as [nm|] eqn:Hc; [|done].
  injection He as <-. apply child_name_join in Hc as [-> Hnm]. eauto.
Qed.

Section Walk.

Context {Img : Type} `{!SharpLib Img}.
Variable process : Process.

Lemma walk_entries_total (rec : string -> M Posix.disk (list string))
    (dir : string) (entries : list Dirent) (out : list string)
    (w : World Posix.disk) :
  (forall d, listing_only (rec d)) ->
  (forall e v, e ∈ entries -> isDirectory e = true -> store v = store w ->
     (rec (Path.join dir (name e)) v).1 <> NoFuel) ->
  (walk_entries rec dir entries out w).1 <> NoFuel.
Proof.
  intros Hlist. revert out w.
  induction entries as [|e entries IH]; intros out w Hrec; simpl; [done|].
  destruct (isDirectory e) eqn:He.
  - unfold bind.
    destruct (rec (Path.join dir (name e)) w) as [[sub|err|] w1] eqn:E.
    + apply IH. intros e' v Hin Hd Hv. apply Hrec; [set_solver|done|].
      apply Hlist in E as (Hs & _). congruence.
    + done.
    + specialize (Hrec e w). rewrite E in Hrec. apply Hrec; [set_solver|done..].
  - apply IH. intros e' v Hin Hd Hv. apply Hrec; [set_solver|done..].
Qed.

(** On a finite store the walk comes back: every level makes the path
    longer, and no path of the store is as long as [Posix.depth_bound]. *)
Lemma walk_total (fuel : nat) (dir : string) (w : World Posix.disk) :
  (Posix.depth_bound (store w) <= fuel + String.length dir)%nat ->
  (1 <= fuel)%nat ->
  (walk fuel dir w).1 <> NoFuel.
Proof.
  revert dir w. induction fuel as [|fuel IH]; intros dir w Hb Hf; [lia|].
  simpl. unfold bind, readdir, fs_readdir, lift. simpl. unfold Posix.readdir.
  destruct (store w !! dir) as [[data|]|] eqn:Hdir; simpl; [done| |done].
  apply walk_entries_total.
  - intros d. apply listing_only_walk.
  - intros e v (n & Hn & _ & Hnm)%entries_of_spec _ Hv. simpl in Hv.
    apply path_length_bound in Hn. apply (length_join dir) in Hnm.
    apply IH; rewrite ?Hv; lia.
Qed.

Lemma main_loop_fuel (webps : list string) (changedCount savedBytes : Z)
    (w : World Posix.disk) :
  (main_loop process webps changedCount savedBytes w).1 <> NoFuel.
Proof.
  destruct (main_loop _ _ _ _ w) as [r w'] eqn:E.
  apply main_loop_sound in E as (_ & _ & Hr). by destruct r.
Qed.

(** With [Posix.depth_bound] of fuel the run always ends with an exit status. *)
Lemma run_total (w : World Posix.disk) :
  (run process (Posix.depth_bound (store w)) w).1 <> None.
Proof.
  unfold run. rewrite main_eq.
  destruct (fs_access _ _); [|done].
  set (w0 := logged _ _ w).
  pose proof (walk_total (Posix.depth_bound (store w)) (TARGET_DIR process) w0) as Hw.
  destruct (walk _ _ w0) as [[files|e|] w1]; [|done|].
  - pose proof (main_loop_fuel (List.filter is_webp files) 0 0 w1) as Hl.
    destruct (main_loop _ _ _ _ w1) as [[[n saved]|e|] w2]; done.
  - exfalso. apply Hw;
      [change (store w0) with (store w); lia|unfold Posix.depth_bound; lia|done].
Qed.

End Walk.

(** *** Temporary files on the concrete store *)

Section Temporaries.

Context {Img : Type} `{!SharpLib Img}.
Variable process : Process.

(** A file that settles leaves no [.tmp] path behind that was not there
    before, with the node it had. *)
Lemma optimize_keeps_tmp (f : string) (w w' : World Posix.disk)
    (r : OptimizeResult) (p : string) (n : Posix.node) :
  optimizeWebp process f w = (Resolved r, w') ->
  endsWith p ".tmp" = true ->
  store w' !! p = Some n -> store w !! p = Some n.
Proof.
  intros Hopt%optimizeWebp_inv Hp.
  inversion Hopt as
    [Hf| | |buf img e Hf| |buf img meta outBuf Hf
    | | |buf img meta outBuf s1 s2 Hf Hread Hsharp Hmeta Hpipe Hneed Hw Hr];
    subst; try done.
  simpl in Hw, Hr |- *. unfold Posix.writeFile in Hw. unfold Posix.rename in Hr.
  assert (Hs1 : s1 = <[f +:+ ".tmp" := Posix.File outBuf]> (store w))
    by (destruct (store w !! (f +:+ ".tmp")) as [[]|]; congruence).
  rewrite Hs1, lookup_insert_eq in Hr.
  assert (Hs2 : s2 = <[f := Posix.File outBuf]>
                       (delete (f +:+ ".tmp")
                          (<[f +:+ ".tmp" := Posix.File outBuf]> (store w))))
    by (destruct (_ !! f) as [[]|]; congruence).
  rewrite Hs2. clear Hr Hs1 Hs2.
  assert (p <> f).
  { intros ->. apply is_webp_not_tmp in Hf. congruence. }
  rewrite lookup_insert_ne by done.
  destruct (decide (p = f +:+ ".tmp")) as [->|Hne].
  - by rewrite lookup_delete_eq.
  - by rewrite lookup_delete_ne, lookup_insert_ne.
Qed.

Lemma main_loop_keeps_tmp (webps : list string) (changedCount savedBytes : Z)
    (w w' : World Posix.disk) (res : Z * Z) (p : string) (n : Posix.node) :
  main_loop process webps changedCount savedBytes w = (Resolved res, w') ->
  endsWith p ".tmp" = true ->
  store w' !! p = Some n -> store w !! p = Some n.
Proof.
  intros Hloop Hp. revert changedCount savedBytes w Hloop.
  induction webps as [|f webps IH]; intros c s w.
  - by intros [= <- <-].
  - rewrite main_loop_cons.
    destruct (optimizeWebp process f w) as [[[reason|rs o nw wd]|e|] w1] eqn:E;
      [| |done..]; intros Hloop Hn; specialize (IH _ _ _ Hloop Hn);
      eapply optimize_keeps_tmp; eauto.
Qed.

Lemma run_keeps_tmp (fuel : nat) (w w' : World Posix.disk)
    (p : string) (n : Posix.node) :
  run process fuel w = (Some 0, w') ->
  endsWith p ".tmp" = true ->
  store w' !! p = Some n -> store w !! p = Some n.
Proof.
  unfold run. rewrite main_eq.
  destruct (fs_access _ _); [|by intros [= <-]].
  destruct (walk _ _ _) as [[files|e|] w1] eqn:Hwalk; [|done..].
  apply listing_only_walk in Hwalk as (Hstore & _). simpl in Hstore.
  destruct (main_loop _ _ _ _ w1) as [[[k saved]|e|] w2] eqn:Hloop; [|done..].
  intros [= <-] Hp Hn. simpl in Hn. rewrite <- Hstore.
  eapply main_loop_keeps_tmp; eauto.
Qed.

End Temporaries.

End PosixFacts.

(** Closed facts about the examples are settled by evaluation: a value is
    computed, or an equation between stores is decided. *)
Ltac by_computation := vm_compute; reflexivity.
Ltac by_decision := apply (bool_decide_unpack _); vm_compute; exact I.

(** ** The decision of [optimizeWebp] *)

Section Decision.

Context {St : Type} `{!NodeFs St} {Img : Type} `{!SharpLib Img}.
Variable process : Process.

Lemma new_ops_app (w w' : World St) (ops : list fs_op) :
  fs_log w' = fs_log w ++ ops -> new_ops w w' = ops.
Proof. intros E. unfold new_ops. rewrite E. apply drop_app_length. Qed.

Lemma new_lines_app (w w' : World St) (lines : list string) :
  stdout w' = stdout w ++ lines -> new_lines w w' = lines.
Proof. intros E. unfold new_lines. rewrite E. apply drop_app_length. Qed.

(** With the bytes read, the metadata there and [outBuf] encoded: the
    temporary file is written exactly when [needs_write] says so; then, if
    both steps go through, the result is [changed] and the store is the one
    the rename left; otherwise nothing was written. *)
Lemma decision_cases (f : string) (w : World St) (buf : Buffer) (img : Img)
    (meta : option Metadata) (outBuf : Buffer) :
  is_webp f = true ->
  fs_readFile f (store w) = Ok buf ->
  sharp buf = Ok img ->
  sharp_metadata img = Ok meta ->
  pipeline_output process buf = Ok outBuf ->
  let need := needs_write process meta buf outBuf in
  let tmp := f +:+ ".tmp" in
  let r := (optimizeWebp process f w).1 in
  let w' := (optimizeWebp process f w).2 in
  (OpWriteFile tmp outBuf ∈ new_ops w w' <-> need = true) /\
  (need = true ->
   forall s1 s2,
     fs_writeFile tmp outBuf (store w) = (Ok tt, s1) ->
     fs_rename tmp f s1 = (Ok tt, s2) ->
     r = Resolved
           (Changed (num_gt (Num (width_or_0 meta)) (MAX_WIDTH process))
              (buf_length buf) (buf_length outBuf) (width_or_0 meta)) /\
     store w' = s2 /\
     new_ops w w' = [OpReadFile f; OpWriteFile tmp outBuf; OpRename tmp f]) /\
  (need = false ->
   r = Resolved (Unchanged (Some "already_optimized")) /\
   store w' = store w /\
   new_ops w w' = [OpReadFile f]).
Proof.
  intros Hf Hread Hsharp Hmeta Hpipe need tmp r w'. subst r w'.
  rewrite optimizeWebp_eq, Hf, Hread, Hsharp, Hmeta, Hpipe. cbn [negb].
  fold need. destruct need.
  - rewrite replace_eq. change (store (after_read f w)) with (store w).
    fold tmp. split; [|split; [|done]].
    + split; [done|]. intros _.
      destruct (fs_writeFile tmp outBuf (store w)) as [[[]|e] s1].
      * destruct (fs_rename tmp f s1) as [[[]|e] s2]; cbn [fst snd];
          erewrite new_ops_app
            by (simpl; rewrite <- !app_assoc; reflexivity);
          set_solver.
      * cbn [fst snd].
        erewrite new_ops_app by (simpl; rewrite <- !app_assoc; reflexivity).
        set_solver.
    + intros _ s1 s2 -> ->. cbn [fst snd]. split; [done|]. split; [done|].
      apply new_ops_app. simpl. by rewrite <- !app_assoc.
  - cbn [fst snd]. rewrite (new_ops_app w _ [OpReadFile f]) by done.
    split; [|done]. split; [|done]. rewrite list_elem_of_singleton. done.
Qed.

End Decision.

(** ** The whole run *)

Section Run.

Context {St : Type} `{!NodeFs St} {Img : Type} `{!SharpLib Img}.
Variable process : Process.

(** Only candidates are ever reported as changed. *)
Lemma changes_are_candidates (webps : list string) (w : World St) :
  Forall (fun c => is_webp c.1.1 = true) (changes (outcomes process webps w)).
Proof.
  revert w. induction webps as [|f webps IH]; intros w; [constructor|].
  cbn [outcomes].
  destruct (optimizeWebp process f w) as [[[reason|rs o n wd]|e|] w1] eqn:E;
    cbn [changes]; try done; try apply IH.
  constructor; [|apply IH].
  apply optimizeWebp_inv in E. by inversion E.
Qed.

(** The calls of a run: the access to the target directory, directory
    listings, and calls for candidates. *)
Lemma run_rewrite_ops (fuel : nat) (w : World St) :
  exists ops,
    fs_log (run process fuel w).2 = fs_log w ++ ops /\
    Forall (fun op => op = OpAccess (TARGET_DIR process) \/ is_listing op
                      \/ rewrite_op ops op) ops.
Proof.
  unfold run. rewrite main_eq.
  set (acc := OpAccess (TARGET_DIR process)).
  destruct (fs_access _ _).
  2: { exists [acc]. split; [done|]. repeat constructor. }
  destruct (walk _ _ _) as [r1 w1] eqn:Hwalk.
  apply listing_only_walk in Hwalk as (_ & _ & _ & ops1 & Hlog1 & Hops1).
  simpl in Hlog1.
  assert (Hfirst : Forall (fun op => op = acc \/ is_listing op
                                     \/ rewrite_op (acc :: ops1) op)
                     (acc :: ops1)).
  { constructor; [by left|]. eapply Forall_impl; [exact Hops1|]. tauto. }
  destruct r1 as [files|e|].
  2,3: exists (acc :: ops1); split;
         [simpl; by rewrite Hlog1, <- app_assoc|exact Hfirst].
  destruct (main_loop _ _ _ _ w1) as [r2 w2] eqn:Hloop.
  apply main_loop_rewrite_ops in Hloop as (ops2 & Hlog2 & Hops2).
  exists ((acc :: ops1) ++ ops2). split.
  - destruct r2 as [[n saved]|e|]; simpl;
      by rewrite Hlog2, Hlog1, <- !app_assoc.
  - apply Forall_app. split.
    + eapply Forall_impl; [exact Hfirst|]. intros op [?|[?|?]]; auto.
      right; right. by apply rewrite_op_app_r.
    + eapply Forall_impl; [exact Hops2|]. intros op ?.
      right; right. by apply rewrite_op_app_l.
Qed.

(** The lines of a run. *)
Lemma run_lines (fuel : nat) (w : World St) :
  exists cs,
    Forall (fun c => is_webp c.1.1 = true) cs /\
    (new_lines w (run process fuel w).2 = [no_dir_line (TARGET_DIR process)]
     \/ new_lines w (run process fuel w).2 = report_lines (ROOT process) cs
     \/ new_lines w (run process fuel w).2
        = report_lines (ROOT process) cs
          ++ [done_line (Z.of_nat (List.length cs)) (saved_total cs)]).
Proof.
  unfold run. rewrite main_eq.
  destruct (fs_access _ _).
  2: { exists []. split; [constructor|]. left. by apply new_lines_app. }
  destruct (walk _ _ _) as [r1 w1] eqn:Hwalk.
  apply listing_only_walk in Hwalk as (_ & Hout1 & _). simpl in Hout1.
  destruct r1 as [files|e|].
  2,3: exists []; split; [constructor|]; right; left;
         apply new_lines_app; simpl; by rewrite Hout1, app_nil_r.
  destruct (main_loop _ _ _ _ w1) as [r2 w2] eqn:Hloop.
  apply main_loop_sound in Hloop as (Hout2 & _ & Hr).
  eexists. split; [apply changes_are_candidates|].
  destruct r2 as [[n saved]|e|]; [|right; left|done].
  - right; right. destruct Hr as (_ & -> & ->).
    apply new_lines_app. simpl. by rewrite Hout2, Hout1, <- app_assoc.
  - apply new_lines_app. simpl. by rewrite Hout2, Hout1.
Qed.

End Run.

(** ** Reading numbers from the environment *)

Section Parsing.

Lemma digit_char (x : N) :
  (x < 10)%N -> Ascii.is_nat (pretty_N_char x) = Some (N.to_nat x).
Proof.
  intros Hx.
  assert (x = 0 \/ x = 1 \/ x = 2 \/ x = 3 \/ x = 4 \/ x = 5 \/ x = 6
          \/ x = 7 \/ x = 8 \/ x = 9)%N as Hcases by lia.
  repeat (destruct Hcases as [->|Hcases]; [reflexivity|]). by subst.
Qed.

Lemma digit_not_space_or_sign (c : ascii) (d : nat) :
  Ascii.is_nat c = Some d ->
  Ascii.is_space c = false /\ c <> "-"%char /\ c <> "+"%char.
Proof.
  destruct c as [[] [] [] [] [] [] [] []]; simpl; intros Hd;
    try discriminate Hd; repeat split; done.
Qed.

Lemma digit_not_space_lead (c : ascii) (d : nat) :
  Ascii.is_nat c = Some d -> space_lead c = false.
Proof.
  destruct c as [[] [] [] [] [] [] [] []]; simpl; intros Hd;
    try discriminate Hd; reflexivity.
Qed.

Lemma pretty_go_digit_led (x : N) (s : string) :
  (0 < x)%N -> digit_led (pretty_N_go x s).
Proof.
  revert s. induction (N.lt_wf_0 x) as [x _ IH]; intros s Hx.
  rewrite pretty_N_go_step by done.
  destruct (decide (x `div` 10 = 0)%N) as [E|E].
  - rewrite E, pretty_N_go_0. eexists _, _, _. split; [done|].
    apply digit_char. by apply N.mod_lt.
  - apply IH; [apply N.div_lt; lia|by apply N.neq_0_lt_0].
Qed.

Lemma digits_pretty_go (x : N) (s : string) (acc : option Z) :
  (0 < x)%N ->
  exists k : nat,
    digits (pretty_N_go x s) acc
    = digits s (Some (default 0 acc * 10 ^ Z.of_nat k + Z.of_N x)).
Proof.
  revert s acc. induction (N.lt_wf_0 x) as [x _ IH]; intros s acc Hx.
  rewrite pretty_N_go_step by done.
  pose proof (N.div_mod x 10 ltac:(done)) as Hdm.
  pose proof (N.mod_lt x 10 ltac:(done)) as Hlt.
  pose proof (N.div_lt x 10 Hx ltac:(done)) as Hdiv.
  pose proof (digit_char (x `mod` 10) Hlt) as Hc.
  destruct (decide (x `div` 10 = 0)%N) as [E|E].
  - rewrite E in *. rewrite pretty_N_go_0. exists 1%nat. simpl.
    rewrite Hc. f_equal. f_equal. lia.
  - destruct (IH (x `div` 10)%N Hdiv
                (String (pretty_N_char (x `mod` 10)) s) acc)
      as [k Hk]; [by apply N.neq_0_lt_0|].
    exists (S k). rewrite Hk. simpl. rewrite Hc. f_equal. f_equal.
    rewrite Nat2Z.inj_succ, Z.pow_succ_r by lia.
    set (q := (x `div` 10)%N) in *. set (r := (x `mod` 10)%N) in *.
    clearbody q r. lia.
Qed.

Lemma parseInt_digit_led (s : string) :
  digit_led s ->
  parseInt s = match digits s None with Some n => Num n | None => NaN end.
Proof.
  intros (c & rest & d & -> & Hd).
  destruct (digit_not_space_or_sign c d Hd) as (Hsp & Hm & Hp).
  unfold parseInt. cbn [trimStart].
  rewrite Hsp, (digit_not_space_lead c d Hd).
  destruct (decide (c = "-"%char)); [done|].
  destruct (decide (c = "+"%char)); [done|].
  assert (Hmatch :
    (match String c rest with
     | String "-"%char r => (-1, r)
     | String "+"%char r => (1, r)
     | _ => (1, String c rest)
     end) = (1, String c rest)).
  { destruct c as [[] [] [] [] [] [] [] []]; done. }
  rewrite Hmatch. destruct (digits _ _); [|done]. f_equal. lia.
Qed.

Lemma pretty_N_digit_led (n : N) : digit_led (pretty n).
Proof.
  unfold pretty, pretty_N. case_decide as Hn.
  - by eexists _, _, 0%nat.
  - apply pretty_go_digit_led. lia.
Qed.

Lemma digits_pretty_N (n : N) : digits (pretty n) None = Some (Z.of_N n).
Proof.
  unfold pretty, pretty_N. case_decide as Hn; [by subst|].
  destruct (digits_pretty_go n "" None) as [k ->]; [lia|]. simpl. f_equal; lia.
Qed.

(** [parseInt] reads back the decimal numeral of every integer. *)
Lemma parseInt_show (z : Z) : parseInt (show z) = Num z.
Proof.
  unfold show. destruct z as [|p|p].
  - reflexivity.
  - change (pretty (Z.pos p)) with (pretty (N.pos p)).
    rewrite parseInt_digit_led by apply pretty_N_digit_led.
    by rewrite digits_pretty_N.
  - change (pretty (Z.neg p)) with ("-" +:+ pretty (N.pos p)).
    unfold parseInt. rewrite app_cons, app_empty.
    change (trimStart (String "-" (pretty (N.pos p))))
      with (String "-" (pretty (N.pos p))).
    cbv iota beta. rewrite digits_pretty_N. f_equal.
Qed.

Lemma show_not_empty (z : Z) : show z <> "".
Proof.
  unfold show. destruct z as [|p|p]; [done| |done].
  change (pretty (Z.pos p)) with (pretty (N.pos p)).
  destruct (pretty_N_digit_led (N.pos p)) as (c & rest & d & -> & _). done.
Qed.

Lemma or_else_show (z : Z) (dflt : string) :
  or_else (Some (show z)) dflt = show z.
Proof.
  unfold or_else. destruct (String.eqb _ "") eqn:E; [|done].
  apply String.eqb_eq in E. by apply show_not_empty in E.
Qed.

End Parsing.

(** ** The toy image library validates the width as [sharp] does *)

Lemma stub_resize_validates_width : resize_validates_width Stub.Image.
Proof.
  intros z img Hz. simpl. unfold Stub.resize.
  destruct (0 <? z) eqn:E; [lia|eauto].
Qed.

(** * The statements of the specification *)

(** C1: for a candidate whose metadata is read (and whose pipeline gives
    [outBuf]), [optimizeWebp] starts the replacement exactly when the width
    exceeds [MAX_WIDTH] or [outBuf] is strictly shorter than the original;
    a width above [MAX_WIDTH] alone is enough, whatever the sizes.  When
    the replacement goes through, the result is [changed] and the store is
    the one left by writing [outBuf] and renaming it over the file.  When
    neither condition holds, the result is
    [{ changed: false, reason: "already_optimized" }], the only call made is
    the read, and the store is untouched. *)
Theorem rewrite_iff_resized_or_smaller
    {St : Type} `{!NodeFs St} {Img : Type} `{!SharpLib Img}
    (process : Process) (f : string) (w : World St) (buf : Buffer)
    (img : Img) (meta : option Metadata) (outBuf : Buffer) :
  is_webp f = true ->
  fs_readFile f (store w) = Ok buf ->
  sharp buf = Ok img ->
  sharp_metadata img = Ok meta ->
  pipeline_output process buf = Ok outBuf ->
  let resized := num_gt (Num (width_or_0 meta)) (MAX_WIDTH process) in
  let smaller := buf_length outBuf <? buf_length buf in
  let tmp := f +:+ ".tmp" in
  let r := (optimizeWebp process f w).1 in
  let w' := (optimizeWebp process f w).2 in
  (OpWriteFile tmp outBuf ∈ new_ops w w' <-> resized || smaller = true) /\
  (resized = true -> OpWriteFile tmp outBuf ∈ new_ops w w') /\
  (resized || smaller = true ->
   forall s1 s2,
     fs_writeFile tmp outBuf (store w) = (Ok tt, s1) ->
     fs_rename tmp f s1 = (Ok tt, s2) ->
     r = Resolved
           (Changed resized (buf_length buf) (buf_length outBuf)
              (width_or_0 meta)) /\
     store w' = s2 /\
     new_ops w w' = [OpReadFile f; OpWriteFile tmp outBuf; OpRename tmp f]) /\
  (resized || smaller = false ->
   r = Resolved (Unchanged (Some "already_optimized")) /\
   store w' = store w /\
   new_ops w w' = [OpReadFile f]).
Proof.
  intros Hf Hread Hsharp Hmeta Hpipe resized smaller tmp r w'.
  destruct (decision_cases process f w buf img meta outBuf
              Hf Hread Hsharp Hmeta Hpipe) as (Hiff & Hyes & Hno).
  unfold needs_write in *. fold resized smaller tmp r w' in Hiff, Hyes, Hno.
  split; [exact Hiff|].
  split; [intros Hr; apply Hiff; by rewrite Hr|].
  split; [exact Hyes|exact Hno].
Qed.

Lemma rewrite_iff_resized_or_smaller_witness :
  let f := "/site/images/logo.WEBP" in
  let w := Posix.start Examples.site in
  let outBuf := [Byte.x08; Byte.x2a; Byte.x2a] in
  let res := optimizeWebp (Img := Stub.Image) Examples.defaults f w in
  res.1 = Resolved (Changed false 6 3 800) /\
  store res.2 !! f = Some (Posix.File outBuf) /\
  store res.2 !! (f +:+ ".tmp") = None /\
  new_ops w res.2
  = [OpReadFile f; OpWriteFile (f +:+ ".tmp") outBuf;
     OpRename (f +:+ ".tmp") f].
Proof.
  intros f w outBuf res.
  pose (buf := Examples.image Byte.x08 5).
  pose (img := {| Stub.input := buf; Stub.resize_width := None;
                  Stub.webp_quality := None |}).
  pose proof (rewrite_iff_resized_or_smaller (Img := Stub.Image)
                Examples.defaults f w buf img
                (Some {| width := Some 800 |}) outBuf) as H.
  specialize (H ltac:(by_computation) ltac:(by_computation)
                ltac:(by_computation) ltac:(by_computation)
                ltac:(by_computation)).
  destruct H as (_ & _ & Hyes & _).
  pose (s1 := <[f +:+ ".tmp" := Posix.File outBuf]> (store w)).
  pose (s2 := <[f := Posix.File outBuf]> (delete (f +:+ ".tmp") s1)).
  assert (Hw : fs_writeFile (f +:+ ".tmp") outBuf (store w) = (Ok tt, s1))
    by by_decision.
  assert (Hr : fs_rename (f +:+ ".tmp") f s1 = (Ok tt, s2)) by by_decision.
  destruct (Hyes ltac:(by_computation) s1 s2 Hw Hr) as (Hres & Hstore & Hops).
  fold res in Hres, Hstore, Hops. rewrite Hres, Hstore, Hops.
  repeat split; by_computation.
Defined.

(** C2: when [metadata()] throws, [optimizeWebp] resolves (nothing is
    thrown to the caller) to [{ changed: false, reason: "metadata_failed" }];
    the read of the file is the only file-system call it made and the store
    is what it was; the loop of [main] then goes on with the next file, its
    two counters and the output as they were. *)
Theorem metadata_failure_skips_file
    {St : Type} `{!NodeFs St} {Img : Type} `{!SharpLib Img}
    (process : Process) (f : string) (w : World St) (buf : Buffer)
    (img : Img) (e : Error) :
  is_webp f = true ->
  fs_readFile f (store w) = Ok buf ->
  sharp buf = Ok img ->
  sharp_metadata img = Err e ->
  let w' := after_read f w in
  optimizeWebp process f w = (Resolved (Unchanged (Some "metadata_failed")), w')
  /\ store w' = store w
  /\ new_ops w w' = [OpReadFile f]
  /\ stdout w' = stdout w
  /\ forall (webps : list string) (changedCount savedBytes : Z),
       main_loop process (f :: webps) changedCount savedBytes w
       = main_loop process webps changedCount savedBytes w'.
Proof.
  intros Hf Hread Hsharp Hmeta w'.
  assert (Hopt : optimizeWebp process f w
                 = (Resolved (Unchanged (Some "metadata_failed")), w')).
  { rewrite optimizeWebp_eq, Hf, Hread, Hsharp, Hmeta. reflexivity. }
  split; [exact Hopt|]. split; [reflexivity|].
  split; [by apply new_ops_app|]. split; [reflexivity|].
  intros webps c s. rewrite main_loop_cons, Hopt. reflexivity.
Qed.

Lemma metadata_failure_skips_file_witness :
  let f := "/site/images/sub/broken.webp" in
  let w := Posix.start Examples.site in
  optimizeWebp (Img := Stub.Image) Examples.defaults f w
  = (Resolved (Unchanged (Some "metadata_failed")), after_read f w).
Proof.
  intros f w.
  pose (buf := Examples.image Byte.x00 4).
  pose (img := {| Stub.input := buf; Stub.resize_width := None;
                  Stub.webp_quality := None |}).
  pose proof (metadata_failure_skips_file (Img := Stub.Image)
                Examples.defaults f w buf img
                "Input buffer contains unsupported image format") as H.
  specialize (H ltac:(by_computation) ltac:(by_computation)
                ltac:(by_computation) ltac:(by_computation)).
  exact (proj1 H).
Defined.

(** C3, as the code has it: a file is replaced by writing the whole output
    to [<path>.tmp] and renaming that path over the original, in this
    order, and [optimizeWebp] makes no other changing call.  On the concrete
    store, a run that ends with status 0 leaves no [.tmp] file of its own:
    every path ending in [.tmp] that is on disk afterwards was there
    before, with the same content. *)
Theorem replacement_goes_through_temporary_file :
  (forall {St : Type} `{!NodeFs St} {Img : Type} `{!SharpLib Img}
          (process : Process) (f : string) (w w' : World St)
          (rs : bool) (oldBytes newBytes wd : Z),
     optimizeWebp process f w
     = (Resolved (Changed rs oldBytes newBytes wd), w') ->
     exists buf outBuf s1,
       fs_readFile f (store w) = Ok buf /\
       pipeline_output process buf = Ok outBuf /\
       newBytes = buf_length outBuf /\
       fs_writeFile (f +:+ ".tmp") outBuf (store w) = (Ok tt, s1) /\
       fs_rename (f +:+ ".tmp") f s1 = (Ok tt, store w') /\
       new_ops w w'
       = [OpReadFile f; OpWriteFile (f +:+ ".tmp") outBuf;
          OpRename (f +:+ ".tmp") f]) /\
  (forall {St : Type} `{!NodeFs St} {Img : Type} `{!SharpLib Img}
          (process : Process) (f : string) (w w' : World St)
          (r : outcome OptimizeResult),
     optimizeWebp process f w = (r, w') ->
     exists ops, fs_log w' = fs_log w ++ ops /\ file_ops f ops) /\
  (forall {Img : Type} `{!SharpLib Img} (process : Process) (fuel : nat)
          (w w' : World Posix.disk) (p : string) (n : Posix.node),
     run process fuel w = (Some 0, w') ->
     endsWith p ".tmp" = true ->
     store w' !! p = Some n -> store w !! p = Some n).
Proof.
  split; [|split].
  - intros St ? Img ? process f w w' rs o nw wd Hopt%optimizeWebp_inv.
    inversion Hopt as
      [| | | | | | |
       |buf img meta outBuf s1 s2 Hf Hread Hsharp Hmeta Hpipe Hneed Hw Hr];
      subst.
    exists buf, outBuf, s1. repeat split; try done.
    apply new_ops_app. simpl. by rewrite <- !app_assoc.
  - intros St ? Img ? process f w w' r Hopt%optimizeWebp_inv.
    by apply optimize_run_frame in Hopt as (_ & _ & _ & Hops).
  - intros Img ? process fuel w w' p n. apply PosixFacts.run_keeps_tmp.
Qed.

Lemma replacement_goes_through_temporary_file_witness :
  Examples.stale !! "/site/images/icon.webp.tmp"
  = Some (Posix.File [Byte.x02]).
Proof.
  pose (r := Examples.go Examples.defaults Examples.stale).
  destruct replacement_goes_through_temporary_file as (_ & _ & H).
  apply (H Stub.Image _ Examples.defaults
           (Posix.depth_bound Examples.stale) (Posix.start Examples.stale)
           r.2); [|by_computation..].
  assert (Hr : r.1 = Some 0) by by_computation.
  rewrite <- Hr. exact (surjective_pairing r).
Defined.

(** C3 as stated fails: after a run that ends with status 0, a file with
    suffix [.tmp] that was on disk before the run, next to an image that
    needs no rewrite, is still there. *)
Lemma tmp_file_remains_after_run :
  let r := Examples.go Examples.defaults Examples.stale in
  r.1 = Some 0 /\
  endsWith "/site/images/icon.webp.tmp" ".tmp" = true /\
  store r.2 !! "/site/images/icon.webp.tmp" = Some (Posix.File [Byte.x02]).
Proof. repeat split; by_computation. Qed.

(** C4, as the code has it: a path that does not pass the filter is
    neither read, written nor renamed by the run, unless it is the
    temporary path [<c>.tmp] that the run writes for a file [c] it
    replaces; that exception is exact (such a path is touched only as the
    temporary path of a candidate whose output the run writes to it, and
    it is never read); every file the run reads passes the filter; and
    every [optimized] line, like the count and the total of the summary, is
    about files that pass the filter. *)
Theorem non_candidates_are_left_alone
    {St : Type} `{!NodeFs St} {Img : Type} `{!SharpLib Img}
    (process : Process) (fuel : nat) (w : World St) (p : string) :
  is_webp p = false ->
  let w' := (run process fuel w).2 in
  ((forall c outBuf,
      OpWriteFile (c +:+ ".tmp") outBuf ∈ new_ops w w' -> p <> c +:+ ".tmp") ->
   forall op, op ∈ new_ops w w' -> ~ touches p op) /\
  (forall op, op ∈ new_ops w w' -> touches p op ->
     op <> OpReadFile p /\
     exists c outBuf,
       is_webp c = true /\ p = c +:+ ".tmp" /\
       OpWriteFile (c +:+ ".tmp") outBuf ∈ new_ops w w') /\
  (forall c, OpReadFile c ∈ new_ops w w' -> is_webp c = true) /\
  exists cs,
    Forall (fun c => is_webp c.1.1 = true) cs /\
    (new_lines w w' = [no_dir_line (TARGET_DIR process)]
     \/ new_lines w w' = report_lines (ROOT process) cs
     \/ new_lines w w'
        = report_lines (ROOT process) cs
          ++ [done_line (Z.of_nat (List.length cs)) (saved_total cs)]).
Proof.
  intros Hp w'.
  destruct (run_rewrite_ops process fuel w) as (ops & Hlog & Hops).
  fold w' in Hlog. rewrite (new_ops_app _ _ _ Hlog) in *.
  rewrite Forall_forall in Hops.
  assert (Hexact : forall op, op ∈ ops -> touches p op ->
            op <> OpReadFile p /\
            exists c outBuf,
              is_webp c = true /\ p = c +:+ ".tmp" /\
              OpWriteFile (c +:+ ".tmp") outBuf ∈ ops).
  { intros op Hin Htouch.
    destruct (Hops op Hin) as [->|[Hl|(c & Hc & Hop)]].
    - done.
    - by destruct op.
    - destruct Hop as [->|[[outBuf ->]|[-> [outBuf Hw]]]]; simpl in Htouch.
      + congruence.
      + subst p. split; [done|]. by exists c, outBuf.
      + destruct Htouch as [<-|Hdst]; [|congruence].
        split; [done|]. by exists c, outBuf. }
  split; [|split; [exact Hexact|split; [|apply run_lines]]].
  - intros Htmp op Hin Htouch.
    destruct (Hexact op Hin Htouch) as (_ & c & outBuf & _ & Heq & Hw).
    by apply (Htmp c outBuf).
  - intros c Hin.
    destruct (Hops _ Hin) as [?|[Hl|(c' & Hc & Hop)]]; [done|done|].
    destruct Hop as [[= ->]|[[outBuf ?]|[? _]]]; done.
Qed.

Lemma non_candidates_are_left_alone_witness :
  let w := Posix.start Examples.site in
  let r := Examples.go Examples.defaults Examples.site in
  r.1 = Some 0 /\
  Forall (fun op => ~ touches "/site/images/notes.txt" op) (new_ops w r.2).
Proof.
  intros w r. split; [by_computation|]. apply Forall_forall.
  apply (non_candidates_are_left_alone (Img := Stub.Image) Examples.defaults
           (Posix.depth_bound Examples.site) w "/site/images/notes.txt");
    [by_computation|].
  intros c outBuf _ Heq.
  assert (Hends : endsWith "/site/images/notes.txt" ".tmp" = false)
    by by_computation.
  rewrite Heq, endsWith_app in Hends. discriminate.
Defined.

(** C4 as stated fails: a file of the walked tree that does not end in
    [.webp], the stale [logo.webp.tmp], is overwritten and renamed away
    when [logo.webp] is replaced. *)
Lemma stale_temporary_file_is_overwritten :
  let p := "/site/images/logo.webp.tmp" in
  let r := Examples.go Examples.defaults Examples.stale in
  is_webp p = false /\
  Examples.stale !! p = Some (Posix.File [Byte.x01]) /\
  (exists files,
     (walk (Posix.depth_bound Examples.stale) (TARGET_DIR Examples.defaults)
        (Posix.start Examples.stale)).1 = Resolved files /\
     p ∈ files) /\
  r.1 = Some 0 /\
  OpWriteFile p [Byte.x08; Byte.x2a; Byte.x2a] ∈ fs_log r.2 /\
  OpRename p "/site/images/logo.webp" ∈ fs_log r.2 /\
  store r.2 !! p = None.
Proof.
  intros p r.
  assert (Hlog : fs_log r.2
                 = [OpAccess "/site/images"; OpReaddir "/site/images";
                    OpReadFile "/site/images/icon.webp";
                    OpReadFile "/site/images/logo.webp";
                    OpWriteFile p [Byte.x08; Byte.x2a; Byte.x2a];
                    OpRename p "/site/images/logo.webp"])
    by by_computation.
  split; [by_computation|]. split; [by_computation|]. split.
  { eexists. split; [by_computation|]. rewrite !elem_of_cons. auto. }
  split; [by_computation|]. rewrite Hlog, !elem_of_cons.
  split; [auto 10|]. split; [auto 10|]. by_computation.
Qed.

(** C5: when [<cwd>/images] cannot be accessed, the run prints the one line
    [No images/ directory found at: ...], makes no other file-system call
    than that access, leaves the store as it was, prints nothing on the
    error stream and ends with status 0, whatever the fuel. *)
Theorem missing_directory_is_no_error
    {St : Type} `{!NodeFs St} {Img : Type} `{!SharpLib Img}
    (process : Process) (fuel : nat) (w : World St) (e : Error) :
  fs_access (TARGET_DIR process) (store w) = Err e ->
  TARGET_DIR process = Path.join (cwd process) "images" /\
  run process fuel w =
  (Some 0,
   {| store := store w;
      fs_log := fs_log w ++ [OpAccess (TARGET_DIR process)];
      stdout := stdout w ++ [no_dir_line (TARGET_DIR process)];
      stderr := stderr w |}).
Proof.
  intros Hacc. split; [reflexivity|].
  unfold run. rewrite main_eq, Hacc. reflexivity.
Qed.

Lemma missing_directory_is_no_error_witness :
  Examples.go Examples.defaults ∅ =
  (Some 0,
   {| store := ∅;
      fs_log := [OpAccess "/site/images"];
      stdout := ["No images/ directory found at: /site/images"];
      stderr := [] |}).
Proof.
  pose proof (missing_directory_is_no_error (Img := Stub.Image)
                Examples.defaults (Posix.depth_bound ∅) (Posix.start ∅)
                "ENOENT") as H.
  specialize (H ltac:(by_computation)). destruct H as [_ H].
  etrans; [exact H|]. by_decision.
Defined.

(** C6: a failure of the read, of the constructor, of the pipeline, of the
    write or of the rename is not caught in [optimizeWebp]: the call
    rejects with that error, the loop and [main] reject with it, and the
    top-level handler prints it on the error stream and exits with
    status 1.  The files after the failing one are not processed: the log
    ends with the calls made for the failing file, and no summary line is
    printed. *)
Theorem other_failures_abort_run
    {St : Type} `{!NodeFs St} {Img : Type} `{!SharpLib Img}
    (process : Process) (fuel : nat) (w w1 w2 : World St)
    (files pre rest : list string) (f : string) (n saved : Z) (e : Error) :
  fs_access (TARGET_DIR process) (store w) = Ok tt ->
  walk fuel (TARGET_DIR process)
    (logged (OpAccess (TARGET_DIR process)) (store w) w)
  = (Resolved files, w1) ->
  List.filter is_webp files = pre ++ f :: rest ->
  main_loop process pre 0 0 w1 = (Resolved (n, saved), w2) ->
  other_failure process f w2 e ->
  exists w3 ops,
    optimizeWebp process f w2 = (Rejected e, w3) /\
    main process fuel w = (Rejected e, w3) /\
    run process fuel w = (Some 1, console_error e w3) /\
    stderr (console_error e w3) = stderr w ++ [e] /\
    fs_log w3 = fs_log w2 ++ ops /\ file_ops f ops /\
    stdout w3 = stdout w2.
Proof.
  intros Hacc Hwalk Hfiles Hpre Hfail.
  assert (Hf : is_webp f = true).
  { assert (Hin : f ∈ List.filter is_webp files)
      by (rewrite Hfiles; set_solver).
    apply list_elem_of_In, filter_In in Hin. tauto. }
  assert (Hrun : exists w3, optimize_run process f w2 (Rejected e) w3).
  { destruct Hfail; eexists;
      [by eapply run_read_failed|by eapply run_input_failed
      |by eapply run_pipeline_failed|by eapply run_write_failed
      |by eapply run_rename_failed]. }
  destruct Hrun as [w3 Hrun].
  pose proof (run_optimizeWebp process f w2 w3 _ Hrun) as Hopt.
  apply optimize_run_frame in Hrun as (Hout & Herr & _ & ops & Hlog & Hops).
  assert (Hmain : main process fuel w = (Rejected e, w3)).
  { rewrite main_eq, Hacc, Hwalk, Hfiles, main_loop_app, Hpre.
    by rewrite main_loop_cons, Hopt. }
  exists w3, ops. split; [done|]. split; [done|].
  split; [unfold run; by rewrite Hmain|].
  split; [|done].
  simpl. rewrite Herr.
  apply main_loop_sound in Hpre as (_ & -> & _).
  apply listing_only_walk in Hwalk as (_ & _ & -> & _). done.
Qed.

Lemma other_failures_abort_run_witness :
  let r := Examples.go Examples.defaults Examples.blocked in
  r.1 = Some 1 /\ stderr r.2 = ["EISDIR"] /\ stdout r.2 = [] /\
  new_ops (Posix.start Examples.blocked) r.2
  = [OpAccess "/site/images"; OpReaddir "/site/images";
     OpReaddir "/site/images/banner.webp.tmp";
     OpReadFile "/site/images/banner.webp";
     OpWriteFile "/site/images/banner.webp.tmp" [Byte.x08; Byte.x2a; Byte.x2a]].
Proof.
  intros r.
  pose (fuel := Posix.depth_bound Examples.blocked).
  pose (w := Posix.start Examples.blocked).
  pose (w0 := logged (OpAccess "/site/images") (store w) w).
  pose (w1 := logged (OpReaddir "/site/images/banner.webp.tmp") (store w)
                (logged (OpReaddir "/site/images") (store w) w0)).
  pose (f := "/site/images/banner.webp").
  pose (buf := Examples.image Byte.x08 5).
  pose (outBuf := [Byte.x08; Byte.x2a; Byte.x2a]).
  pose (img := {| Stub.input := buf; Stub.resize_width := None;
                  Stub.webp_quality := None |}).
  assert (Hfail : other_failure (Img := Stub.Image) Examples.defaults f w1
                    "EISDIR").
  { apply (write_fails _ _ _ _ buf img (Some {| width := Some 800 |}) outBuf
             (store w)); [by_computation..|by_decision]. }
  pose proof (other_failures_abort_run (Img := Stub.Image) Examples.defaults
                fuel w w1 w1 [f; "/site/images/logo.webp"]
                [] ["/site/images/logo.webp"] f 0 0 "EISDIR") as H.
  specialize (H ltac:(by_computation) ltac:(by_decision)
                ltac:(by_computation) ltac:(by_decision) Hfail).
  destruct H as (w3 & ops & Hopt & _ & Hrun & _).
  assert (Hw3 : w3 = logged (OpWriteFile (f +:+ ".tmp") outBuf) (store w)
                       (after_read f w1)).
  { transitivity (optimizeWebp (Img := Stub.Image) Examples.defaults f w1).2;
      [by rewrite Hopt|by_decision]. }
  change r with (run (Img := Stub.Image) Examples.defaults fuel w).
  rewrite Hrun, Hw3. repeat split; by_computation.
Defined.

(** C7, as the code has it: when the target directory is there, the walk
    comes back and every candidate settles, the run ends with status 0 and
    prints, after what was on the output before, one line
    [✅ optimized: <relative-path> (<old> -> <new> bytes)] for every changed
    file, in the order of processing, and then the one line
    [Done. changed=<n>, saved=<bytes> bytes], with [n] the number of changed
    files and [bytes] the sum of their byte differences. *)
Theorem changed_files_are_reported
    {St : Type} `{!NodeFs St} {Img : Type} `{!SharpLib Img}
    (process : Process) (fuel : nat) (w w1 : World St) (files : list string) :
  fs_access (TARGET_DIR process) (store w) = Ok tt ->
  walk fuel (TARGET_DIR process)
    (logged (OpAccess (TARGET_DIR process)) (store w) w)
  = (Resolved files, w1) ->
  let webps := List.filter is_webp files in
  let rs := outcomes process webps w1 in
  let cs := changes rs in
  map fst rs = webps ->
  (exists w',
     run process fuel w = (Some 0, w') /\
     new_lines w w'
     = map (fun c => "✅ optimized: " +:+ Path.relative (ROOT process) c.1.1
                     +:+ " (" +:+ show c.1.2 +:+ " -> " +:+ show c.2
                     +:+ " bytes)") cs
       ++ ["Done. changed=" +:+ show (Z.of_nat (List.length cs))
           +:+ ", saved=" +:+ show (saved_total cs) +:+ " bytes"]) /\
  List.length cs = List.length (List.filter (fun r => changed r.2) rs).
Proof.
  intros Hacc Hwalk webps rs cs Hall.
  split.
  - destruct (main_loop_complete process webps 0 0 w1 Hall)
      as (n & saved & w2 & Hloop).
    pose proof (main_loop_sound process _ _ _ _ _ _ Hloop)
      as (Hout & _ & _ & -> & ->).
    fold rs cs in Hout.
    eexists. split.
    + unfold run. rewrite main_eq, Hacc, Hwalk. fold webps. rewrite Hloop.
      reflexivity.
    + apply new_lines_app. simpl. rewrite Hout.
      apply listing_only_walk in Hwalk as (_ & -> & _). simpl.
      rewrite <- app_assoc. reflexivity.
  - subst cs. clear. induction rs as [|[f [reason|? ? ? ?]] rs IH]; simpl;
      [done|done|by f_equal].
Qed.

Lemma changed_files_are_reported_witness :
  let r := Examples.go Examples.defaults Examples.site in
  r.1 = Some 0 /\
  stdout r.2
  = ["✅ optimized: images/logo.WEBP (6 -> 3 bytes)";
     "✅ optimized: images/sub/hero.webp (2 -> 3 bytes)";
     "Done. changed=2, saved=2 bytes"].
Proof.
  intros r.
  pose (fuel := Posix.depth_bound Examples.site).
  pose (w := Posix.start Examples.site).
  pose (w1 := logged (OpReaddir "/site/images/sub") (store w)
                (logged (OpReaddir "/site/images") (store w)
                   (logged (OpAccess "/site/images") (store w) w))).
  pose (files := ["/site/images/logo.WEBP"; "/site/images/notes.txt";
                  "/site/images/sub/broken.webp"; "/site/images/sub/hero.webp";
                  "/site/images/sub/icon.webp"]).
  pose proof (changed_files_are_reported (Img := Stub.Image)
                Examples.defaults fuel w w1 files) as H.
  specialize (H ltac:(by_computation) ltac:(by_decision)
                ltac:(by_computation)).
  destruct H as [(w' & Hrun & Hlines) _].
  change r with (run (Img := Stub.Image) Examples.defaults fuel w).
  rewrite Hrun. split; [done|].
  change (stdout (Some 0, w').2) with (new_lines w w').
  rewrite Hlines. by_computation.
Defined.

(** C7 as stated fails on the form of the lines: what the run prints is
    neither [optimized: <path> (<old>-><new> bytes)] nor
    [Done. changed=<n>, saved=<bytes>]. *)
Lemma report_lines_differ_from_stated_form :
  let r := Examples.go Examples.defaults Examples.site in
  r.1 = Some 0 /\
  stdout r.2
  = ["✅ optimized: images/logo.WEBP (6 -> 3 bytes)";
     "✅ optimized: images/sub/hero.webp (2 -> 3 bytes)";
     "Done. changed=2, saved=2 bytes"] /\
  stdout r.2
  <> [spec_optimized_line "images/logo.WEBP" 6 3;
      spec_optimized_line "images/sub/hero.webp" 2 3;
      spec_done_line 2 2] /\
  (spec_optimized_line "images/sub/hero.webp" 2 3 ∉ stdout r.2) /\
  (spec_optimized_line "images/logo.WEBP" 6 3 ∉ stdout r.2) /\
  (spec_done_line 2 2 ∉ stdout r.2).
Proof.
  split; [by_computation|]. split; [by_computation|].
  repeat split; by_decision.
Qed.

(** C8, as the code has it: with [MAX_WIDTH] and [WEBP_QUALITY] unset (or
    empty) the configuration is 1920 and 80; a variable that holds the
    decimal numeral of an integer (of magnitude below 2^53, where numbers
    are exact) gives that integer, whatever its sign or size: the script
    puts no bound on the quality level. *)
Theorem configuration_from_environment (process : Process) :
  (env process !! "MAX_WIDTH" = None \/ env process !! "MAX_WIDTH" = Some "" ->
   MAX_WIDTH process = Num 1920) /\
  (env process !! "WEBP_QUALITY" = None
   \/ env process !! "WEBP_QUALITY" = Some "" ->
   QUALITY process = Num 80) /\
  (forall z : Z, Z.abs z < 2 ^ 53 ->
                 env process !! "MAX_WIDTH" = Some (show z) ->
                 MAX_WIDTH process = Num z) /\
  (forall z : Z, Z.abs z < 2 ^ 53 ->
                 env process !! "WEBP_QUALITY" = Some (show z) ->
                 QUALITY process = Num z).
Proof.
  unfold MAX_WIDTH, QUALITY. repeat split.
  - by intros [-> | ->].
  - by intros [-> | ->].
  - intros z _ ->. by rewrite or_else_show, parseInt_show.
  - intros z _ ->. by rewrite or_else_show, parseInt_show.
Qed.

Lemma configuration_from_environment_witness :
  MAX_WIDTH Examples.defaults = Num 1920 /\
  QUALITY Examples.defaults = Num 80 /\
  QUALITY (Examples.proc [("WEBP_QUALITY", "35")]) = Num 35.
Proof.
  destruct (configuration_from_environment Examples.defaults)
    as (Hw & Hq & _).
  destruct (configuration_from_environment
              (Examples.proc [("WEBP_QUALITY", "35")])) as (_ & _ & _ & Hz).
  split; [apply Hw; left; by_computation|].
  split; [apply Hq; left; by_computation|].
  apply (Hz 35); [lia|by_computation].
Defined.

(** C8 as stated fails: with [WEBP_QUALITY=150] the quality level of the
    run is 150, outside 0-100, and a run over a directory without images
    ends normally with it; with [WEBP_QUALITY=high] it is [NaN]. *)
Lemma quality_is_not_confined_to_0_100 :
  let process := Examples.proc [("WEBP_QUALITY", "150")] in
  let d : Posix.disk := {[ "/site/images" := Posix.Dir ]} in
  QUALITY process = Num 150 /\
  ~ (0 <= 150 <= 100) /\
  (Examples.go process d).1 = Some 0 /\
  stdout (Examples.go process d).2 = ["Done. changed=0, saved=0 bytes"] /\
  QUALITY (Examples.proc [("WEBP_QUALITY", "high")]) = NaN.
Proof.
  split; [by_computation|]. split; [lia|]. repeat split; by_computation.
Qed.

(** C9: when [metadata()] resolves without a width, the width counts as
    0.  Such a file is never [resized]: [sharp] refuses a negative width
    when [resize] is called, so whenever the pipeline gives an output the
    maximum width is not negative and [0 > MAX_WIDTH] is false.  The
    replacement is therefore started exactly when [outBuf] is strictly
    shorter than the original, the result of a replacement reports
    [resized: false] and [width: 0], and when the pipeline throws nothing
    is written at all. *)
Theorem missing_width_counts_as_zero
    {St : Type} `{!NodeFs St} {Img : Type} `{!SharpLib Img}
    (process : Process) (f : string) (w : World St) (buf : Buffer)
    (img : Img) (meta : option Metadata) :
  resize_validates_width Img ->
  is_webp f = true ->
  fs_readFile f (store w) = Ok buf ->
  sharp buf = Ok img ->
  sharp_metadata img = Ok meta ->
  (meta = None \/ exists m, meta = Some m /\ width m = None) ->
  let tmp := f +:+ ".tmp" in
  let r := (optimizeWebp process f w).1 in
  let w' := (optimizeWebp process f w).2 in
  width_or_0 meta = 0 /\
  (forall rs oldBytes newBytes wd,
     r = Resolved (Changed rs oldBytes newBytes wd) ->
     rs = false /\ wd = 0 /\ newBytes < oldBytes) /\
  (forall e,
     pipeline_output process buf = Err e ->
     r = Rejected e /\ store w' = store w /\ new_ops w w' = [OpReadFile f]) /\
  (forall outBuf,
     pipeline_output process buf = Ok outBuf ->
     let smaller := buf_length outBuf <? buf_length buf in
     num_gt (Num (width_or_0 meta)) (MAX_WIDTH process) = false /\
     needs_write process meta buf outBuf = smaller /\
     (OpWriteFile tmp outBuf ∈ new_ops w w' <-> smaller = true) /\
     (smaller = true ->
      forall s1 s2,
        fs_writeFile tmp outBuf (store w) = (Ok tt, s1) ->
        fs_rename tmp f s1 = (Ok tt, s2) ->
        r = Resolved (Changed false (buf_length buf) (buf_length outBuf) 0) /\
        store w' = s2) /\
     (smaller = false ->
      r = Resolved (Unchanged (Some "already_optimized")) /\
      store w' = store w /\
      new_ops w w' = [OpReadFile f])).
Proof.
  intros Hlaw Hf Hread Hsharp Hmeta Hwidth tmp r w'.
  assert (Hw0 : width_or_0 meta = 0).
  { destruct Hwidth as [->|(m & -> & Hm)]; [done|]. simpl. by rewrite Hm. }
  assert (Hmax : forall outBuf,
            pipeline_output process buf = Ok outBuf ->
            num_gt (Num 0) (MAX_WIDTH process) = false).
  { intros outBuf Hpipe. unfold pipeline_output in Hpipe.
    rewrite Hsharp in Hpipe.
    destruct (MAX_WIDTH process) as [z|] eqn:Hz; [|done]. simpl.
    destruct (z <? 0) eqn:E; [|done].
    destruct (Hlaw z img) as [e He]; [lia|].
    by rewrite He in Hpipe. }
  split; [done|]. split; [|split].
  - intros rs o n wd Hr. subst r.
    destruct (optimizeWebp process f w) as [r0 w0] eqn:E. simpl in Hr. subst r0.
    apply optimizeWebp_inv in E.
    inversion E as
      [| | | | | | |
       |buf' img' meta' outBuf s1 s2 _ Hread' Hsharp' Hmeta' Hpipe Hneed];
      subst.
    rewrite Hread in Hread'. injection Hread' as <-.
    rewrite Hsharp in Hsharp'. injection Hsharp' as <-.
    rewrite Hmeta in Hmeta'. injection Hmeta' as <-.
    pose proof (Hmax _ Hpipe) as Hnot.
    unfold needs_write in Hneed. rewrite Hw0 in *.
    rewrite Hnot in Hneed. cbn [orb] in Hneed.
    unfold buf_length in *. split; [exact Hnot|]. split; [done|]. lia.
  - intros e Hpipe.
    assert (Hrun : optimizeWebp process f w = (Rejected e, after_read f w)).
    { apply run_optimizeWebp. by eapply run_pipeline_failed. }
    subst r w'. rewrite Hrun. cbn [fst snd]. split; [done|]. split; [done|].
    by apply new_ops_app.
  - intros outBuf Hpipe smaller.
    destruct (decision_cases process f w buf img meta outBuf
                Hf Hread Hsharp Hmeta Hpipe) as (Hiff & Hyes & Hno).
    unfold needs_write in *. rewrite Hw0 in *.
    rewrite (Hmax _ Hpipe) in *. cbn [orb] in *.
    fold smaller tmp r w' in Hiff, Hyes, Hno.
    split; [done|]. split; [done|]. split; [exact Hiff|].
    split; [|exact Hno].
    intros Hs s1 s2 H1 H2. destruct (Hyes Hs s1 s2 H1 H2) as (? & ? & _). done.
Qed.

Lemma missing_width_counts_as_zero_witness :
  let f := "/site/images/plain.webp" in
  let d : Posix.disk :=
    {[ "/site/images" := Posix.Dir;
       f := Posix.File (Examples.image Byte.xff 5) ]} in
  let outBuf := [Byte.xff; Byte.x2a; Byte.x2a] in
  let res :=
    optimizeWebp (Img := Stub.Image) Examples.defaults f (Posix.start d) in
  res.1 = Resolved (Changed false 6 3 0) /\
  store res.2 !! f = Some (Posix.File outBuf) /\
  (optimizeWebp (Img := Stub.Image) (Examples.proc [("MAX_WIDTH", "-7")]) f
     (Posix.start d)).1
  = Rejected "Expected positive integer for width".
Proof.
  intros f d outBuf res.
  pose (buf := Examples.image Byte.xff 5).
  pose (img := {| Stub.input := buf; Stub.resize_width := None;
                  Stub.webp_quality := None |}).
  pose proof (missing_width_counts_as_zero (Img := Stub.Image)
                Examples.defaults f (Posix.start d) buf img
                (Some {| width := None |})
                stub_resize_validates_width) as H.
  specialize (H ltac:(by_computation) ltac:(by_computation)
                ltac:(by_computation) ltac:(by_computation)
                ltac:(right; eexists; split; reflexivity)).
  destruct H as (_ & _ & _ & H).
  destruct (H outBuf ltac:(by_computation)) as (_ & _ & _ & Hyes & _).
  pose (s1 := <[f +:+ ".tmp" := Posix.File outBuf]> d).
  pose (s2 := <[f := Posix.File outBuf]> (delete (f +:+ ".tmp") s1)).
  assert (Hw : fs_writeFile (f +:+ ".tmp") outBuf d = (Ok tt, s1))
    by by_decision.
  assert (Hr : fs_rename (f +:+ ".tmp") f s1 = (Ok tt, s2)) by by_decision.
  destruct (Hyes ltac:(by_computation) s1 s2 Hw Hr) as (Hres & Hstore).
  fold res in Hres, Hstore. rewrite Hres, Hstore.
  split; [|split]; by_computation.
Defined.

(** C10: the total in the summary line of a run that ends with status 0 is
    the sum of [oldBytes - newBytes] over the changed files, and it can be
    negative: a file that is replaced because it was resized, by an
    encoding larger than the original, adds a negative difference. *)
Theorem saved_bytes_is_sum_of_differences :
  (forall {St : Type} `{!NodeFs St} {Img : Type} `{!SharpLib Img}
          (process : Process) (fuel : nat) (w w' : World St),
     fs_access (TARGET_DIR process) (store w) = Ok tt ->
     run process fuel w = (Some 0, w') ->
     exists files w1,
       walk fuel (TARGET_DIR process)
         (logged (OpAccess (TARGET_DIR process)) (store w) w)
       = (Resolved files, w1) /\
       let cs := changes (outcomes process (List.filter is_webp files) w1) in
       last (stdout w')
       = Some (done_line (Z.of_nat (List.length cs)) (saved_total cs)) /\
       saved_total cs = foldr Z.add 0 (map (fun c => c.1.2 - c.2) cs)) /\
  (let r := Examples.go Examples.defaults Examples.wide in
   let w1 := logged (OpReaddir "/site/images") Examples.wide
               (logged (OpAccess "/site/images") Examples.wide
                  (Posix.start Examples.wide)) in
   r.1 = Some 0 /\
   outcomes (Img := Stub.Image) Examples.defaults ["/site/images/hero.webp"] w1
   = [("/site/images/hero.webp", Changed true 2 3 3000)] /\
   stdout r.2 = ["✅ optimized: images/hero.webp (2 -> 3 bytes)";
                 "Done. changed=1, saved=-1 bytes"]).
Proof.
  split.
  - intros St ? Img ? process fuel w w' Hacc. unfold run.
    rewrite main_eq, Hacc.
    destruct (walk _ _ _) as [[files|e|] w1] eqn:Hwalk; [|done..].
    destruct (main_loop _ _ _ _ w1) as [[[n saved]|e|] w2] eqn:Hloop;
      [|done..].
    intros [= <-]. exists files, w1. split; [done|].
    apply main_loop_sound in Hloop as (_ & _ & _ & -> & ->).
    split; [simpl; by rewrite last_snoc|].
    unfold saved_total.
    induction (changes _) as [|c cs IH]; simpl; [done|by rewrite IH].
  - split; [by_computation|]. split; [by_decision|by_computation].
Qed.

Lemma saved_bytes_is_sum_of_differences_witness :
  let r := Examples.go Examples.defaults Examples.site in
  last (stdout r.2) = Some "Done. changed=2, saved=2 bytes".
Proof.
  intros r.
  pose (fuel := Posix.depth_bound Examples.site).
  pose (w := Posix.start Examples.site).
  destruct saved_bytes_is_sum_of_differences as [H _].
  destruct (H _ _ Stub.Image _ Examples.defaults fuel w r.2)
    as (files & w1 & Hwalk & Hlast & _).
  - by_computation.
  - assert (Hr : r.1 = Some 0) by by_computation.
    rewrite <- Hr. exact (surjective_pairing r).
  - rewrite Hlast.
    assert (Hw : (walk fuel (TARGET_DIR Examples.defaults)
                    (logged (OpAccess (TARGET_DIR Examples.defaults))
                       (store w) w))
                 = (Resolved
                      ["/site/images/logo.WEBP";
                       "/site/images/notes.txt";
                       "/site/images/sub/broken.webp"; "/site/images/sub/hero.webp";
                       "/site/images/sub/icon.webp"],
                    logged (OpReaddir "/site/images/sub") (store w)
                      (logged (OpReaddir "/site/images") (store w)
                         (logged (OpAccess "/site/images") (store w) w))))
      by by_decision.
    rewrite Hw in Hwalk. injection Hwalk as <- <-. by_computation.
Defined.

(** * Further properties of the script *)

(** ** [exists] and [walk] *)

(** X1: [exists] never rejects: whatever [fs.access] throws (a missing
    path, a permission error) it answers [false], and [true] exactly when
    the access went through; the access is its only call and the store,
    the output and the error stream are left as they were. *)
Theorem exists_never_rejects {St : Type} `{!NodeFs St}
    (p : string) (w : World St) :
  exists b : bool,
    exists_ p w = (Resolved b, logged (OpAccess p) (store w) w) /\
    (b = true <-> exists u, fs_access p (store w) = Ok u) /\
    (b = false <-> exists e, fs_access p (store w) = Err e).
Proof.
  rewrite exists_eq. destruct (fs_access p (store w)) as [u|e] eqn:E.
  - exists true. split; [done|]. split; split; eauto; try done.
    by intros [? ?].
  - exists false. split; [done|]. split; split; eauto; try done.
    by intros [? ?].
Qed.

(** X2: [walk] only lists directories: whatever it settles to and
    whatever the fuel, every call it made is a [readdir], and the store,
    the output and the error stream are as before. *)
Theorem walk_only_lists_directories {St : Type} `{!NodeFs St}
    (fuel : nat) (dir : string) (w : World St) :
  let w' := (walk fuel dir w).2 in
  store w' = store w /\ stdout w' = stdout w /\ stderr w' = stderr w /\
  Forall is_listing (new_ops w w') /\
  (forall p op, op ∈ new_ops w w' -> ~ touches p op).
Proof.
  intros w'. destruct (walk fuel dir w) as [r w1] eqn:E. subst w'. simpl.
  apply listing_only_walk in E as (Hs & Ho & He & ops & Hlog & Hops).
  rewrite (new_ops_app _ _ _ Hlog).
  do 4 (split; [done|]). intros p op Hin Ht.
  rewrite Forall_forall in Hops. specialize (Hops op Hin). by destruct op.
Qed.

Section WalkOnDisk.

Lemma strip_prefix_app (pre s : string) :
  Path.strip_prefix pre (pre +:+ s) = Some s.
Proof.
  induction pre as [|a pre IH]; [done|].
  rewrite app_cons. simpl. by rewrite Ascii.eqb_refl.
Qed.

Lemma child_name_of_join (dir nm : string) :
  Posix.plain_name nm -> Posix.child_name dir (Path.join dir nm) = Some nm.
Proof.
  intros [Hnm Hslash]. unfold Posix.child_name, Path.join.
  rewrite strip_prefix_app, Hslash.
  destruct (String.eqb nm "") eqn:E; [|done].
  by apply String.eqb_eq in E.
Qed.

Lemma plain_child_name (dir q nm : string) :
  Posix.child_name dir q = Some nm ->
  q = Path.join dir nm /\ Posix.plain_name nm.
Proof.
  unfold Posix.child_name, Path.join, Posix.plain_name.
  destruct (Path.strip_prefix _ q) as [rest|] eqn:E; [|done].
  apply PosixFacts.strip_prefix_spec in E as ->.
  destruct (String.eqb rest "") eqn:Hrest; [done|].
  destruct (Posix.has_slash rest) eqn:Hs; [done|]. intros [= ->].
  repeat split; [|done]. by apply String.eqb_neq.
Qed.

(** The listing of [dir]: one entry for every path of the store that is a
    plain name below [dir]. *)
Lemma entries_of_iff (dir : string) (d : Posix.disk) (e : Dirent) :
  e ∈ Posix.entries_of dir d <->
  Posix.plain_name (name e) /\
  exists n, d !! Path.join dir (name e) = Some n /\
            isDirectory e = Posix.is_dir n.
Proof.
  unfold Posix.entries_of. rewrite merge_sort_Permutation.
  unfold Posix.children_of. rewrite list_elem_of_omap. split.
  - intros ([q n] & Hin & He). apply elem_of_map_to_list in Hin.
    simpl in He. destruct (Posix.child_name dir q) as [nm|] eqn:Hc; [|done].
    injection He as <-. apply plain_child_name in Hc as [-> Hnm]. eauto.
  - intros (Hnm & n & Hn & Hd). exists (Path.join dir (name e), n).
    split; [by apply elem_of_map_to_list|]. simpl.
    rewrite (child_name_of_join _ _ Hnm). destruct e; simpl in *. by subst.
Qed.

Lemma below_iff_entries (d : Posix.disk) (dir p : string) :
  Posix.below d dir p <->
  exists e, e ∈ Posix.entries_of dir d /\
    ((isDirectory e = false /\ p = Path.join dir (name e))
     \/ (isDirectory e = true /\ Posix.below d (Path.join dir (name e)) p)).
Proof.
  split.
  - intros H. inversion H as [dir' nm data Hnm Hn|dir' nm p' Hnm Hn Hb]; subst.
    + exists {| name := nm; isDirectory := false |}.
      split; [apply entries_of_iff; simpl; eauto|]. left. done.
    + exists {| name := nm; isDirectory := true |}.
      split; [apply entries_of_iff; simpl; eauto|]. right. done.
  - intros (e & (Hnm & n & Hn & Hd)%entries_of_iff & [[He ->]|[He Hb]]).
    + rewrite He in Hd. destruct n as [data|]; [|done].
      by eapply Posix.below_file.
    + rewrite He in Hd. destruct n as [data|]; [done|].
      by eapply Posix.below_dir.
Qed.

Lemma below_is_file (d : Posix.disk) (dir p : string) :
  Posix.below d dir p ->
  (exists data, d !! p = Some (Posix.File data)) /\
  exists rest, p = Path.dir_prefix dir +:+ rest /\ rest <> "".
Proof.
  induction 1 as [dir nm data [Hnm _] Hn|dir nm p [Hnm _] Hn Hb [IH1 IH2]].
  - split; [eauto|]. by exists nm.
  - split; [done|]. destruct IH2 as (rest & -> & Hrest).
    exists (nm +:+ (if endsWith (Path.dir_prefix dir +:+ nm) "/"
                    then "" else "/") +:+ rest).
    assert (Hassoc : forall a b c : string, (a +:+ b) +:+ c = a +:+ b +:+ c).
    { intros a b c. induction a as [|x a IH]; [done|].
      rewrite !app_cons. by f_equal. }
    split.
    + unfold Path.join. unfold Path.dir_prefix at 1.
      destruct (endsWith (Path.dir_prefix dir +:+ nm) "/");
        by rewrite ?Hassoc.
    + destruct nm; [done|]. by rewrite app_cons.
Qed.

Lemma walk_entries_below (rec : string -> M Posix.disk (list string))
    (dir : string) (d : Posix.disk) (entries : list Dirent) :
  (forall sub, listing_only (rec sub)) ->
  (forall sub v files v',
     rec sub v = (Resolved files, v') -> store v = d ->
     forall p, p ∈ files <-> Posix.below d sub p) ->
  forall (out : list string) (w w' : World Posix.disk) (files : list string),
    walk_entries rec dir entries out w = (Resolved files, w') ->
    store w = d ->
    forall p,
      p ∈ files <->
      p ∈ out \/
      exists e, e ∈ entries /\
        ((isDirectory e = false /\ p = Path.join dir (name e))
         \/ (isDirectory e = true
             /\ Posix.below d (Path.join dir (name e)) p)).
Proof.
  intros Hlist Hrec.
  induction entries as [|e entries IH]; intros out w w' files Hwalk Hd p.
  - injection Hwalk as <- <-. split; [auto|].
    intros [?|(e & He & _)]; [done|]. by apply elem_of_nil in He.
  - simpl in Hwalk. destruct (isDirectory e) eqn:He.
    + unfold bind in Hwalk.
      destruct (rec (Path.join dir (name e)) w) as [[sub|err|] w1] eqn:E;
        [|done..].
      pose proof (Hrec _ _ _ _ E Hd) as Hsub.
      apply Hlist in E as (Hs & _).
      rewrite (IH _ _ _ _ Hwalk) by congruence.
      rewrite elem_of_app, Hsub. split.
      * intros [[?|?]|(e' & Hin & Hcase)]; [by left| |].
        -- right. exists e. split; [apply elem_of_cons; auto|]. by right.
        -- right. exists e'. split; [apply elem_of_cons; auto|done].
      * intros [?|(e' & Hin & Hcase)]; [by left; left|].
        apply elem_of_cons in Hin as [-> |Hin].
        -- destruct Hcase as [[? _]|[_ ?]]; [congruence|]. by left; right.
        -- right. eauto.
    + rewrite (IH _ _ _ _ Hwalk) by done.
      rewrite elem_of_app, list_elem_of_singleton. split.
      * intros [[?| ->]|(e' & Hin & Hcase)]; [by left| |].
        -- right. exists e. split; [apply elem_of_cons; auto|]. by left.
        -- right. exists e'. split; [apply elem_of_cons; auto|done].
      * intros [?|(e' & Hin & Hcase)]; [by left; left|].
        apply elem_of_cons in Hin as [-> |Hin].
        -- destruct Hcase as [[_ ->] |[? _]]; [|congruence]. by left; right.
        -- right. eauto.
Qed.

Lemma walk_below (fuel : nat) (dir : string) (w w' : World Posix.disk)
    (files : list string) :
  walk fuel dir w = (Resolved files, w') ->
  forall p, p ∈ files <-> Posix.below (store w) dir p.
Proof.
  revert dir w w' files.
  induction fuel as [|fuel IH]; intros dir w w' files; [done|].
  simpl. unfold bind, readdir, lift. simpl. unfold Posix.readdir.
  destruct (store w !! dir) as [[data|]|] eqn:Hdir; [done| |done].
  intros Hwalk p.
  eapply (walk_entries_below (walk fuel) dir (store w)) in Hwalk;
    [|intros; apply listing_only_walk| |done].
  - rewrite Hwalk, below_iff_entries. split; [|by right].
    intros [Hnil|?]; [by apply elem_of_nil in Hnil|done].
  - intros sub v fs v' Hsub <-. by eapply IH.
Qed.

End WalkOnDisk.

(** X3: on a finite store [walk] comes back: with [depth_bound] of fuel it
    never runs out, and any larger fuel gives the same result and the same
    world.  (Every level of the recursion makes the path longer, and no
    path of the store is as long as [depth_bound].) *)
Theorem walk_returns_on_a_finite_store
    (dir : string) (w : World Posix.disk) (fuel : nat) :
  (walk (Posix.depth_bound (store w)) dir w).1 <> NoFuel /\
  ((Posix.depth_bound (store w) <= fuel)%nat ->
   walk fuel dir w = walk (Posix.depth_bound (store w)) dir w).
Proof.
  assert (Hret : (walk (Posix.depth_bound (store w)) dir w).1 <> NoFuel).
  { apply PosixFacts.walk_total; [lia|unfold Posix.depth_bound; lia]. }
  split; [done|]. intros Hle.
  destruct (walk (Posix.depth_bound (store w)) dir w) as [r w'] eqn:E.
  by eapply walk_fuel_mono.
Qed.

Lemma walk_returns_on_a_finite_store_witness :
  walk 1000 "/site/images" (Posix.start Examples.site)
  = walk (Posix.depth_bound Examples.site) "/site/images"
      (Posix.start Examples.site).
Proof.
  destruct (walk_returns_on_a_finite_store "/site/images"
              (Posix.start Examples.site) 1000) as [_ H].
  apply H. vm_compute. lia.
Defined.

(** X4: what [walk] yields on the concrete store: when it resolves, its
    list holds exactly the regular files below the directory, through any
    depth of subdirectories; so every path it yields is on disk as a file
    (never a directory) and lies under the directory walked. *)
Theorem walk_yields_the_files_below
    (fuel : nat) (dir : string) (w w' : World Posix.disk)
    (files : list string) :
  walk fuel dir w = (Resolved files, w') ->
  (forall p, p ∈ files <-> Posix.below (store w) dir p) /\
  (forall p, p ∈ files ->
     (exists data, store w !! p = Some (Posix.File data)) /\
     exists rest, p = Path.dir_prefix dir +:+ rest /\ rest <> "").
Proof.
  intros Hwalk. pose proof (walk_below _ _ _ _ _ Hwalk) as H.
  split; [done|]. intros p Hp%H. by apply below_is_file in Hp.
Qed.

Lemma walk_yields_the_files_below_witness :
  Posix.below Examples.site "/site/images" "/site/images/sub/hero.webp".
Proof.
  pose (w := Posix.start Examples.site).
  pose (files := ["/site/images/logo.WEBP"; "/site/images/notes.txt";
                  "/site/images/sub/broken.webp"; "/site/images/sub/hero.webp";
                  "/site/images/sub/icon.webp"]).
  pose (w' := logged (OpReaddir "/site/images/sub") Examples.site
                (logged (OpReaddir "/site/images") Examples.site w)).
  pose proof (walk_yields_the_files_below (Posix.depth_bound Examples.site)
                "/site/images" w w' files) as H.
  specialize (H ltac:(by_decision)). destruct H as [H _].
  apply H. unfold files. rewrite !elem_of_cons. auto.
Defined.

(** X5: a listing that fails is fatal: when [<cwd>/images] can be accessed
    but [readdir] on it throws (it is a regular file, or unreadable), the
    run reads no file, prints nothing on the output, prints the error on
    the error stream and ends with status 1. *)
Theorem listing_failure_aborts_run
    {St : Type} `{!NodeFs St} {Img : Type} `{!SharpLib Img}
    (process : Process) (fuel : nat) (w : World St) (u : unit) (e : Error) :
  fs_access (TARGET_DIR process) (store w) = Ok u ->
  fs_readdir (TARGET_DIR process) (store w) = Err e ->
  run process (S fuel) w =
  (Some 1,
   {| store := store w;
      fs_log := fs_log w ++ [OpAccess (TARGET_DIR process);
                             OpReaddir (TARGET_DIR process)];
      stdout := stdout w;
      stderr := stderr w ++ [e] |}).
Proof.
  intros Hacc Hdir. unfold run. rewrite main_eq, Hacc.
  simpl. unfold bind, readdir, lift. simpl. rewrite Hdir.
  unfold console_error, logged. simpl. by rewrite <- app_assoc.
Qed.

Lemma listing_failure_aborts_run_witness :
  let r := Examples.go Examples.defaults Examples.no_directory in
  r.1 = Some 1 /\ stderr r.2 = ["ENOTDIR"] /\ stdout r.2 = [] /\
  fs_log r.2 = [OpAccess "/site/images"; OpReaddir "/site/images"].
Proof.
  intros r.
  pose proof (listing_failure_aborts_run (Img := Stub.Image)
                Examples.defaults
                (pred (Posix.depth_bound Examples.no_directory))
                (Posix.start Examples.no_directory) tt "ENOTDIR") as H.
  specialize (H ltac:(by_computation) ltac:(by_computation)).
  assert (Hr : r = run (Img := Stub.Image) Examples.defaults
                     (S (pred (Posix.depth_bound Examples.no_directory)))
                     (Posix.start Examples.no_directory))
    by by_decision.
  rewrite Hr, H. repeat split; by_computation.
Defined.

(** ** The extension filter *)

Section Filter.

Lemma toLowerCase_split (s a b : string) :
  toLowerCase s = a +:+ b ->
  exists a' b', s = a' +:+ b' /\ toLowerCase a' = a /\ toLowerCase b' = b.
Proof.
  revert s. induction a as [|c a IH]; intros s Hs.
  - exists "", s. by rewrite !app_empty in *.
  - destruct s as [|x s]; [done|]. rewrite app_cons in Hs. simpl in Hs.
    injection Hs as Hc Hs. destruct (IH _ Hs) as (a' & b' & -> & <- & <-).
    exists (String x a'), b'. rewrite app_cons. simpl. by rewrite Hc.
Qed.

Lemma toLowerCase_idem (s : string) : toLowerCase (toLowerCase s) = toLowerCase s.
Proof.
  induction s as [|c s IH]; [done|]. simpl. rewrite IH. f_equal.
  destruct c as [[] [] [] [] [] [] [] []]; reflexivity.
Qed.

End Filter.

(** X6: the filter looks at the end of the path only, and not at its
    case: a path passes exactly when it ends in some spelling of [.webp]
    ([.webp], [.WEBP], [.WebP], ...); so it passes whenever it is a prefix
    followed by such an ending, and lowering the case of a path does not
    change the answer. *)
Theorem filter_is_case_insensitive_suffix_test (f : string) :
  (is_webp f = true <->
   exists pre ext, f = pre +:+ ext /\ toLowerCase ext = ".webp") /\
  is_webp (toLowerCase f) = is_webp f /\
  (forall pre, is_webp (pre +:+ ".webp") = true
               /\ is_webp (pre +:+ ".WEBP") = true
               /\ is_webp (pre +:+ ".WebP") = true).
Proof.
  assert (Hext : forall pre ext, toLowerCase ext = ".webp" ->
                                 is_webp (pre +:+ ext) = true).
  { intros pre ext Hext. unfold is_webp.
    rewrite toLowerCase_app, Hext. apply endsWith_app. }
  split; [split|split].
  - intros (pre & Hpre)%endsWith_inv.
    apply toLowerCase_split in Hpre as (a & b & -> & _ & Hb). eauto.
  - intros (pre & ext & -> & Hlow). by apply Hext.
  - unfold is_webp. by rewrite toLowerCase_idem.
  - intros pre. repeat split; by apply Hext.
Qed.

(** X7: the temporary path of a file never passes the filter, whatever the
    file: a [.tmp] file that is left on disk is dropped by the filter of
    [main], and [optimizeWebp] called on it answers [{ changed: false }]
    without any call, leaving the world as it is. *)
Theorem temporary_path_is_no_candidate
    {St : Type} `{!NodeFs St} {Img : Type} `{!SharpLib Img}
    (process : Process) (f : string) (w : World St) (files : list string) :
  is_webp (f +:+ ".tmp") = false /\
  (f +:+ ".tmp" ∉ List.filter is_webp files) /\
  optimizeWebp process (f +:+ ".tmp") w = (Resolved (Unchanged None), w).
Proof.
  pose proof (is_webp_tmp f) as Htmp. split; [done|]. split.
  - intros Hin%list_elem_of_In%filter_In. destruct Hin. congruence.
  - by rewrite optimizeWebp_eq, Htmp.
Qed.

(** X8: the filter of [main] and the guard of [optimizeWebp] do the same
    work: the loop over all walked files comes to the same counters and
    the same world as the loop over the filtered files. *)
Theorem filter_and_guard_agree
    {St : Type} `{!NodeFs St} {Img : Type} `{!SharpLib Img}
    (process : Process) (files : list string) (changedCount savedBytes : Z)
    (w : World St) :
  main_loop process files changedCount savedBytes w
  = main_loop process (List.filter is_webp files) changedCount savedBytes w.
Proof.
  revert changedCount savedBytes w.
  induction files as [|f files IH]; intros c s w; [done|].
  cbn [List.filter]. destruct (is_webp f) eqn:Hf.
  - rewrite !main_loop_cons.
    destruct (optimizeWebp process f w) as [[[reason|rs o n wd]|e|] w1];
      [apply IH|apply IH|done|done].
  - rewrite main_loop_cons, optimizeWebp_eq, Hf. simpl. apply IH.
Qed.

(** X9: with no candidate in the tree the run reads no file: when the walk
    yields no path that passes the filter, the run prints the one line
    [Done. changed=0, saved=0 bytes], ends with status 0, and every call it
    made is the access to the directory or a listing. *)
Theorem run_without_candidates
    {St : Type} `{!NodeFs St} {Img : Type} `{!SharpLib Img}
    (process : Process) (fuel : nat) (w w1 : World St) (u : unit)
    (files : list string) :
  fs_access (TARGET_DIR process) (store w) = Ok u ->
  walk fuel (TARGET_DIR process)
    (logged (OpAccess (TARGET_DIR process)) (store w) w)
  = (Resolved files, w1) ->
  Forall (fun f => is_webp f = false) files ->
  exists w',
    run process fuel w = (Some 0, w') /\
    store w' = store w /\
    new_lines w w' = ["Done. changed=0, saved=0 bytes"] /\
    stderr w' = stderr w /\
    Forall (fun op => op = OpAccess (TARGET_DIR process) \/ is_listing op)
      (new_ops w w').
Proof.
  intros Hacc Hwalk Hnone.
  assert (Hfilter : List.filter is_webp files = []).
  { clear -Hnone.
    induction Hnone as [|f files Hf _ IH]; [done|]. simpl. by rewrite Hf. }
  eexists. split.
  { unfold run. rewrite main_eq, Hacc, Hwalk, Hfilter. reflexivity. }
  apply listing_only_walk in Hwalk as (Hs & Ho & He & ops & Hlog & Hops).
  simpl in *. split; [done|]. split.
  { apply new_lines_app. simpl. by rewrite Ho. }
  split; [done|].
  rewrite (new_ops_app w _ (OpAccess (TARGET_DIR process) :: ops))
    by (simpl; by rewrite Hlog, <- app_assoc).
  constructor; [by left|]. eapply Forall_impl; [exact Hops|]. auto.
Qed.

Lemma run_without_candidates_witness :
  let r := Examples.go Examples.defaults Examples.no_images in
  r.1 = Some 0 /\ stdout r.2 = ["Done. changed=0, saved=0 bytes"].
Proof.
  intros r.
  pose (w := Posix.start Examples.no_images).
  pose (w1 := logged (OpReaddir "/site/images") Examples.no_images
                (logged (OpAccess "/site/images") Examples.no_images w)).
  pose proof (run_without_candidates (Img := Stub.Image) Examples.defaults
                (Posix.depth_bound Examples.no_images) w w1 tt
                ["/site/images/logo.webp.tmp"; "/site/images/notes.txt"])
    as H.
  specialize (H ltac:(by_computation) ltac:(by_decision)
                ltac:(repeat constructor)).
  destruct H as (w' & Hrun & _ & Hlines & _).
  change r with (run (Img := Stub.Image) Examples.defaults
                   (Posix.depth_bound Examples.no_images) w).
  rewrite Hrun. split; [done|]. exact Hlines.
Defined.

(** ** Replacing a file on the concrete store *)

Section ReplaceOnDisk.

Context {Img : Type} `{!SharpLib Img}.
Variable process : Process.

Lemma posix_write_ok (p : string) (data : Buffer) (d s1 : Posix.disk) :
  fs_writeFile p data d = (Ok tt, s1) ->
  s1 = <[p := Posix.File data]> d /\ d !! p <> Some Posix.Dir.
Proof.
  simpl. unfold Posix.writeFile.
  destruct (d !! p) as [[]|]; intros [= <-]; done.
Qed.

Lemma posix_write_err (p : string) (data : Buffer) (d s1 : Posix.disk)
    (e : Error) :
  fs_writeFile p data d = (Err e, s1) -> s1 = d.
Proof.
  simpl. unfold Posix.writeFile.
  destruct (d !! p) as [[]|]; intros [= ]; done.
Qed.

Lemma posix_rename_err (src dst : string) (d s2 : Posix.disk) (e : Error) :
  fs_rename src dst d = (Err e, s2) -> s2 = d.
Proof.
  simpl. unfold Posix.rename.
  destruct (d !! src) as [[]|]; [destruct (d !! dst) as [[]|]|..];
    intros [= ]; done.
Qed.

Lemma posix_rename_ok (src dst : string) (d s2 : Posix.disk) :
  fs_rename src dst d = (Ok tt, s2) ->
  exists data, d !! src = Some (Posix.File data) /\
               s2 = <[dst := Posix.File data]> (delete src d).
Proof.
  simpl. unfold Posix.rename.
  destruct (d !! src) as [[data|]|]; [|done..].
  destruct (d !! dst) as [[]|]; intros [= <-]; eauto.
Qed.

Lemma posix_read_ok (p : string) (d : Posix.disk) (buf : Buffer) :
  fs_readFile p d = Ok buf <-> d !! p = Some (Posix.File buf).
Proof.
  simpl. unfold Posix.readFile. destruct (d !! p) as [[]|]; naive_solver.
Qed.

(** One file, whatever it settles to: only the file and its temporary path
    can differ afterwards, and no directory appears, disappears or is
    replaced. *)
Lemma posix_step (f : string) (w w' : World Posix.disk)
    (r : outcome OptimizeResult) :
  optimize_run process f w r w' ->
  (is_webp f = false -> store w' = store w) /\
  (forall p, p <> f -> p <> f +:+ ".tmp" -> store w' !! p = store w !! p) /\
  (forall p, store w' !! p = Some Posix.Dir <-> store w !! p = Some Posix.Dir).
Proof.
  intros Hrun.
  destruct Hrun as
    [Hf|e Hf Hread|buf e Hf Hread Hsharp|buf img e Hf Hread Hsharp Hmeta
    |buf img meta e Hf Hread Hsharp Hmeta Hpipe
    |buf img meta outBuf Hf Hread Hsharp Hmeta Hpipe Hneed
    |buf img meta outBuf e s1 Hf Hread Hsharp Hmeta Hpipe Hneed Hw
    |buf img meta outBuf s1 e s2 Hf Hread Hsharp Hmeta Hpipe Hneed Hw Hr
    |buf img meta outBuf s1 s2 Hf Hread Hsharp Hmeta Hpipe Hneed Hw Hr];
    simpl; try done.
  - apply posix_write_err in Hw as ->. done.
  - apply posix_rename_err in Hr as ->.
    apply posix_write_ok in Hw as [-> Hnd].
    split; [congruence|]. split.
    + intros p _ Hp. by rewrite lookup_insert_ne.
    + intros p. destruct (decide (p = f +:+ ".tmp")) as [->|Hp].
      * rewrite lookup_insert_eq. naive_solver.
      * by rewrite lookup_insert_ne.
  - apply posix_write_ok in Hw as [-> Hnd].
    apply posix_rename_ok in Hr as (data & _ & ->).
    apply posix_read_ok in Hread.
    split; [congruence|]. split.
    + intros p Hp1 Hp2.
      by rewrite lookup_insert_ne, lookup_delete_ne, lookup_insert_ne.
    + intros p. destruct (decide (p = f)) as [->|Hp1].
      * rewrite lookup_insert_eq, Hread. naive_solver.
      * rewrite lookup_insert_ne by done.
        destruct (decide (p = f +:+ ".tmp")) as [->|Hp2].
        -- rewrite lookup_delete_eq. naive_solver.
        -- by rewrite lookup_delete_ne, lookup_insert_ne.
Qed.

Lemma posix_loop (webps : list string) (changedCount savedBytes : Z)
    (w w' : World Posix.disk) (r : outcome (Z * Z)) (p : string) :
  main_loop process webps changedCount savedBytes w = (r, w') ->
  (is_webp p = false ->
   (forall c, is_webp c = true -> p <> c +:+ ".tmp") ->
   store w' !! p = store w !! p) /\
  (store w' !! p = Some Posix.Dir <-> store w !! p = Some Posix.Dir).
Proof.
  revert changedCount savedBytes w.
  induction webps as [|f webps IH]; intros c s w.
  - by intros [= <- <-].
  - rewrite main_loop_cons.
    destruct (optimizeWebp process f w) as [ro w1] eqn:E.
    apply optimizeWebp_inv, posix_step in E as (Hskip & Hframe & Hdir).
    assert (Hp : is_webp p = false ->
                 (forall c, is_webp c = true -> p <> c +:+ ".tmp") ->
                 store w1 !! p = store w !! p).
    { intros Hnot Htmp. destruct (is_webp f) eqn:Hf.
      - apply Hframe; [congruence|by apply Htmp].
      - by rewrite Hskip. }
    destruct ro as [[reason|rs o n wd]|e|].
    + intros [H1 H2]%IH. split; [|by rewrite H2].
      intros ??. rewrite H1 by done. by apply Hp.
    + intros [H1 H2]%IH. simpl in H1, H2. split; [|by rewrite H2].
      intros ??. rewrite H1 by done. by apply Hp.
    + intros [= <- <-]. done.
    + intros [= <- <-]. done.
Qed.

Lemma posix_replaced (f : string) (w w' : World Posix.disk)
    (rs : bool) (oldBytes newBytes wd : Z) :
  optimizeWebp process f w
  = (Resolved (Changed rs oldBytes newBytes wd), w') ->
  is_webp f = true /\
  exists buf outBuf,
    store w !! f = Some (Posix.File buf) /\
    pipeline_output process buf = Ok outBuf /\
    oldBytes = buf_length buf /\ newBytes = buf_length outBuf /\
    fs_readFile f (store w') = Ok outBuf /\
    store w' !! (f +:+ ".tmp") = None /\
    forall p, p <> f -> p <> f +:+ ".tmp" -> store w' !! p = store w !! p.
Proof.
  intros Hopt%optimizeWebp_inv.
  pose proof (posix_step _ _ _ _ Hopt) as (_ & Hframe & _).
  inversion Hopt as
    [| | | | | | |
     |buf img meta outBuf s1 s2 Hf Hread Hsharp Hmeta Hpipe Hneed Hw Hr];
    subst.
  split; [done|].
  exists buf, outBuf. apply posix_read_ok in Hread.
  apply posix_write_ok in Hw as [-> _].
  apply posix_rename_ok in Hr as (data & Hdata & ->).
  rewrite lookup_insert_eq in Hdata. injection Hdata as <-.
  do 4 (split; [done|]). split; [|split].
  - apply posix_read_ok. simpl. by rewrite lookup_insert_eq.
  - simpl. rewrite lookup_insert_ne by (symmetry; apply tmp_neq).
    by rewrite lookup_delete_eq.
  - exact Hframe.
Qed.

End ReplaceOnDisk.

(** X10: a replacement, read back: when [optimizeWebp] reports a change on
    the concrete store, the file held the bytes that were read and now
    holds exactly the output of the pipeline, the two byte counts of the
    result are the lengths of those, the temporary path is gone, and every
    other path of the store is as it was. *)
Theorem replaced_file_holds_the_output
    {Img : Type} `{!SharpLib Img} (process : Process) (f : string)
    (w w' : World Posix.disk) (rs : bool) (oldBytes newBytes wd : Z) :
  optimizeWebp process f w
  = (Resolved (Changed rs oldBytes newBytes wd), w') ->
  exists buf outBuf,
    store w !! f = Some (Posix.File buf) /\
    pipeline_output process buf = Ok outBuf /\
    oldBytes = buf_length buf /\ newBytes = buf_length outBuf /\
    fs_readFile f (store w') = Ok outBuf /\
    store w' !! (f +:+ ".tmp") = None /\
    forall p, p <> f -> p <> f +:+ ".tmp" -> store w' !! p = store w !! p.
Proof. intros Hopt. by apply posix_replaced in Hopt as [_ H]. Qed.

Lemma replaced_file_holds_the_output_witness :
  let f := "/site/images/sub/hero.webp" in
  exists w',
    optimizeWebp (Img := Stub.Image) Examples.defaults f
      (Posix.start Examples.site)
    = (Resolved (Changed true 2 3 3000), w') /\
    fs_readFile f (store w') = Ok [Byte.x13; Byte.x2a; Byte.x2a] /\
    store w' !! "/site/images/notes.txt"
    = Some (Posix.File [Byte.x68; Byte.x69]).
Proof.
  intros f.
  pose (w := Posix.start Examples.site).
  pose (w' := (optimizeWebp (Img := Stub.Image) Examples.defaults f w).2).
  assert (Hopt : optimizeWebp (Img := Stub.Image) Examples.defaults f w
                 = (Resolved (Changed true 2 3 3000), w')).
  { assert (H1 : (optimizeWebp (Img := Stub.Image) Examples.defaults f w).1
                 = Resolved (Changed true 2 3 3000)) by by_computation.
    rewrite <- H1. apply surjective_pairing. }
  exists w'. split; [exact Hopt|].
  destruct (replaced_file_holds_the_output _ _ _ _ _ _ _ _ Hopt)
    as (buf & outBuf & Hold & Hpipe & _ & _ & Hback & _ & Hframe).
  assert (Hbuf : buf = Examples.image Byte.x1e 1).
  { assert (Hs : store w !! f = Some (Posix.File (Examples.image Byte.x1e 1)))
      by by_computation.
    rewrite Hs in Hold. by injection Hold. }
  subst buf.
  assert (Hout : pipeline_output (Img := Stub.Image) Examples.defaults
                   (Examples.image Byte.x1e 1)
                 = Ok [Byte.x13; Byte.x2a; Byte.x2a]) by by_computation.
  rewrite Hout in Hpipe. injection Hpipe as <-.
  split; [exact Hback|].
  rewrite Hframe; [by_computation|done|done].
Defined.

(** X11: a second pass is a no-op when the first output already satisfies
    the skip test: after a replacement on the concrete store, if the
    re-encoding of the output is not strictly shorter than the output and
    its width does not exceed the maximum, [optimizeWebp] on the same path
    answers [already_optimized], its only call is the read, and the store
    is left as the first pass wrote it. *)
Theorem second_pass_changes_nothing
    {Img : Type} `{!SharpLib Img} (process : Process) (f : string)
    (w w' : World Posix.disk) (rs : bool) (oldBytes newBytes wd : Z)
    (buf outBuf out2 : Buffer) (img2 : Img) (meta2 : option Metadata) :
  optimizeWebp process f w
  = (Resolved (Changed rs oldBytes newBytes wd), w') ->
  store w !! f = Some (Posix.File buf) ->
  pipeline_output process buf = Ok outBuf ->
  sharp outBuf = Ok img2 ->
  sharp_metadata img2 = Ok meta2 ->
  pipeline_output process outBuf = Ok out2 ->
  needs_write process meta2 outBuf out2 = false ->
  optimizeWebp process f w'
  = (Resolved (Unchanged (Some "already_optimized")), after_read f w') /\
  store (after_read f w') = store w' /\
  new_ops w' (after_read f w') = [OpReadFile f].
Proof.
  intros Hopt Hbuf Hpipe Hsharp2 Hmeta2 Hpipe2 Hneed2.
  apply posix_replaced in Hopt
    as (Hf & buf' & outBuf' & Hbuf' & Hpipe' & _ & _ & Hback & _).
  rewrite Hbuf in Hbuf'. injection Hbuf' as <-.
  rewrite Hpipe in Hpipe'. injection Hpipe' as <-.
  split; [|split; [reflexivity|apply new_ops_app; reflexivity]].
  apply run_optimizeWebp. by eapply run_already_optimized.
Qed.

Lemma second_pass_changes_nothing_witness :
  let f := "/site/images/logo.WEBP" in
  let w' := (optimizeWebp (Img := Stub.Image) Examples.defaults f
               (Posix.start Examples.site)).2 in
  optimizeWebp (Img := Stub.Image) Examples.defaults f w'
  = (Resolved (Unchanged (Some "already_optimized")), after_read f w').
Proof.
  intros f w'.
  pose (w := Posix.start Examples.site).
  pose (outBuf := [Byte.x08; Byte.x2a; Byte.x2a]).
  pose (img2 := {| Stub.input := outBuf; Stub.resize_width := None;
                   Stub.webp_quality := None |}).
  assert (Hopt : optimizeWebp (Img := Stub.Image) Examples.defaults f w
                 = (Resolved (Changed false 6 3 800), w')).
  { assert (H1 : (optimizeWebp (Img := Stub.Image) Examples.defaults f w).1
                 = Resolved (Changed false 6 3 800)) by by_computation.
    rewrite <- H1. apply surjective_pairing. }
  pose proof (second_pass_changes_nothing (Img := Stub.Image)
                Examples.defaults f w w' false 6 3 800
                (Examples.image Byte.x08 5) outBuf outBuf img2
                (Some {| width := Some 800 |}) Hopt) as H.
  specialize (H ltac:(by_computation) ltac:(by_computation)
                ltac:(by_computation) ltac:(by_computation)
                ltac:(by_computation) ltac:(by_computation)).
  exact (proj1 H).
Defined.

(** ** Counters and streams *)

Section Counters.

Context {St : Type} `{!NodeFs St} {Img : Type} `{!SharpLib Img}.
Variable process : Process.

(** What a [changed] result says about the file. *)
Lemma changed_result (f : string) (w w' : World St)
    (rs : bool) (oldBytes newBytes wd : Z) :
  optimizeWebp process f w
  = (Resolved (Changed rs oldBytes newBytes wd), w') ->
  rs = num_gt (Num wd) (MAX_WIDTH process) /\
  (rs = false -> newBytes < oldBytes) /\
  0 <= oldBytes /\ 0 <= newBytes.
Proof.
  intros Hopt%optimizeWebp_inv.
  inversion Hopt as
    [| | | | | | |
     |buf img meta outBuf s1 s2 Hf Hread Hsharp Hmeta Hpipe Hneed Hw Hr];
    subst.
  split; [done|]. unfold needs_write in Hneed.
  split; [|unfold buf_length; lia].
  change (num_gt (Num (width_or_0 meta)) (MAX_WIDTH process) = false
          -> buf_length outBuf < buf_length buf).
  intros Hrs. rewrite Hrs in Hneed. simpl in Hneed. lia.
Qed.

Lemma length_changes (rs : list (string * OptimizeResult)) :
  (List.length (changes rs) <= List.length rs)%nat.
Proof.
  induction rs as [|[f [reason|? ? ? ?]] rs IH]; simpl; lia.
Qed.

Lemma main_stderr (fuel : nat) (w : World St) :
  stderr (main process fuel w).2 = stderr w.
Proof.
  rewrite main_eq. destruct (fs_access _ _); [|done].
  destruct (walk _ _ _) as [r1 w1] eqn:Hwalk.
  apply listing_only_walk in Hwalk as (_ & _ & He1 & _). simpl in He1.
  destruct r1 as [files|e|]; [|done..].
  destruct (main_loop _ _ _ _ w1) as [r2 w2] eqn:Hloop.
  apply main_loop_sound in Hloop as (_ & He2 & _).
  destruct r2 as [[n saved]|e|]; simpl; congruence.
Qed.

End Counters.

(** X12: without a resize nothing is lost: in a loop that resolves, if no
    changed file was resized, every changed file is strictly smaller than
    it was, so the total of saved bytes grows by at least the number of
    changed files. *)
Theorem saved_bytes_without_resize
    {St : Type} `{!NodeFs St} {Img : Type} `{!SharpLib Img}
    (process : Process) (webps : list string) (changedCount savedBytes : Z)
    (w w' : World St) (n saved : Z) :
  main_loop process webps changedCount savedBytes w
  = (Resolved (n, saved), w') ->
  Forall (fun fr => forall o nw wd, fr.2 <> Changed true o nw wd)
    (outcomes process webps w) ->
  Forall (fun c => c.2 < c.1.2) (changes (outcomes process webps w)) /\
  savedBytes + (n - changedCount) <= saved.
Proof.
  revert changedCount savedBytes w.
  induction webps as [|f webps IH]; intros c s w.
  - intros [= <- <-] _. split; [constructor|lia].
  - rewrite main_loop_cons. cbn [outcomes].
    destruct (optimizeWebp process f w) as [[[reason|rs o nw wd]|e|] w1] eqn:E;
      [| |done..].
    + intros Hloop Hall. apply Forall_cons in Hall as [_ Hall].
      by apply IH.
    + intros Hloop Hall. apply Forall_cons in Hall as [Hrs Hall].
      apply changed_result in E as (_ & Hsmall & _).
      destruct rs; [by destruct (Hrs o nw wd)|]. specialize (Hsmall eq_refl).
      destruct (IH _ _ _ Hloop Hall) as [Hcs Hsaved]. cbn [changes].
      split; [by constructor|lia].
Qed.

Lemma saved_bytes_without_resize_witness :
  (main_loop (Img := Stub.Image) Examples.defaults
     ["/site/images/icon.webp"; "/site/images/logo.webp"] 0 0
     (Posix.start Examples.stale)).1 = Resolved (1, 3) /\
  Forall (fun c => c.2 < c.1.2)
    (changes (outcomes (Img := Stub.Image) Examples.defaults
                ["/site/images/icon.webp"; "/site/images/logo.webp"]
                (Posix.start Examples.stale))) /\
  0 + (1 - 0) <= 3.
Proof.
  pose (w := Posix.start Examples.stale).
  pose (webps := ["/site/images/icon.webp"; "/site/images/logo.webp"]).
  pose (w' := (main_loop (Img := Stub.Image) Examples.defaults webps 0 0 w).2).
  assert (H1 : (main_loop (Img := Stub.Image) Examples.defaults
                  webps 0 0 w).1 = Resolved (1, 3)) by by_computation.
  assert (Hloop : main_loop (Img := Stub.Image) Examples.defaults webps 0 0 w
                  = (Resolved (1, 3), w')).
  { rewrite <- H1. apply surjective_pairing. }
  split; [exact H1|].
  pose proof (saved_bytes_without_resize (Img := Stub.Image)
                Examples.defaults webps 0 0 w w' 1 3 Hloop) as H.
  apply H.
  assert (Hrs : outcomes (Img := Stub.Image) Examples.defaults webps w
                = [("/site/images/icon.webp",
                    Unchanged (Some "already_optimized"));
                   ("/site/images/logo.webp", Changed false 6 3 800)])
    by by_decision.
  rewrite Hrs.
  repeat constructor; simpl; intros; discriminate.
Defined.

(** X13: the counters of the loop: the count of changed files never goes
    down and grows by at most one for each candidate, and the loop prints
    exactly one line for every file it counted. *)
Theorem changed_count_is_bounded
    {St : Type} `{!NodeFs St} {Img : Type} `{!SharpLib Img}
    (process : Process) (webps : list string) (changedCount savedBytes : Z)
    (w w' : World St) (n saved : Z) :
  main_loop process webps changedCount savedBytes w
  = (Resolved (n, saved), w') ->
  changedCount <= n <= changedCount + Z.of_nat (List.length webps) /\
  Z.of_nat (List.length (new_lines w w')) = n - changedCount.
Proof.
  intros (Hout & _ & Hm & -> & _)%main_loop_sound.
  pose proof (length_changes (outcomes process webps w)) as Hlen.
  assert (Hw : List.length webps = List.length (outcomes process webps w))
    by (rewrite <- Hm at 1; apply List.length_map).
  rewrite (new_lines_app _ _ _ Hout). unfold report_lines.
  rewrite List.length_map. lia.
Qed.

Lemma changed_count_is_bounded_witness :
  (main_loop (Img := Stub.Image) Examples.defaults
     ["/site/images/icon.webp"; "/site/images/logo.webp"] 0 0
     (Posix.start Examples.stale)).1 = Resolved (1, 3) /\
  0 <= 1 <= 0 + Z.of_nat (List.length
                            ["/site/images/icon.webp";
                             "/site/images/logo.webp"]) /\
  Z.of_nat (List.length
              (new_lines (Posix.start Examples.stale)
                 (main_loop (Img := Stub.Image) Examples.defaults
                    ["/site/images/icon.webp"; "/site/images/logo.webp"] 0 0
                    (Posix.start Examples.stale)).2)) = 1 - 0.
Proof.
  pose (w := Posix.start Examples.stale).
  pose (webps := ["/site/images/icon.webp"; "/site/images/logo.webp"]).
  pose (w' := (main_loop (Img := Stub.Image) Examples.defaults webps 0 0 w).2).
  assert (H1 : (main_loop (Img := Stub.Image) Examples.defaults
                  webps 0 0 w).1 = Resolved (1, 3)) by by_computation.
  assert (Hloop : main_loop (Img := Stub.Image) Examples.defaults webps 0 0 w
                  = (Resolved (1, 3), w')).
  { rewrite <- H1. apply surjective_pairing. }
  split; [exact H1|].
  exact (changed_count_is_bounded (Img := Stub.Image)
           Examples.defaults webps 0 0 w w' 1 3 Hloop).
Defined.

(** X14: what a run leaves alone on the concrete store, whatever it ends
    with: a path that does not pass the filter and is not the temporary
    path of a candidate keeps its node, byte for byte, and the run neither
    creates, removes nor replaces a directory. *)
Theorem run_keeps_other_files_and_directories
    {Img : Type} `{!SharpLib Img} (process : Process) (fuel : nat)
    (w : World Posix.disk) (p : string) :
  let w' := (run process fuel w).2 in
  (is_webp p = false ->
   (forall c, is_webp c = true -> p <> c +:+ ".tmp") ->
   store w' !! p = store w !! p) /\
  (store w' !! p = Some Posix.Dir <-> store w !! p = Some Posix.Dir).
Proof.
  intros w'. subst w'. unfold run. rewrite main_eq.
  destruct (fs_access _ _); [|done].
  destruct (walk _ _ _) as [r1 w1] eqn:Hwalk.
  apply listing_only_walk in Hwalk as (Hs1 & _). simpl in Hs1.
  destruct r1 as [files|e|]; [|simpl; by rewrite Hs1..].
  destruct (main_loop _ _ _ _ w1) as [r2 w2] eqn:Hloop.
  apply (posix_loop process _ _ _ _ _ _ p) in Hloop as [H1 H2].
  rewrite Hs1 in H1, H2.
  destruct r2 as [[n saved]|e|]; simpl; done.
Qed.

Lemma run_keeps_other_files_and_directories_witness :
  (Examples.go Examples.defaults Examples.site).1 = Some 0 /\
  store (Examples.go Examples.defaults Examples.site).2
    !! "/site/images/notes.txt"
  = Examples.site !! "/site/images/notes.txt".
Proof.
  split; [by_computation|].
  pose proof (run_keeps_other_files_and_directories (Img := Stub.Image)
                Examples.defaults (Posix.depth_bound Examples.site)
                (Posix.start Examples.site) "/site/images/notes.txt") as H.
  apply (proj1 H); [by_computation|].
  intros c _ Heq.
  assert (Hends : endsWith "/site/images/notes.txt" ".tmp" = false)
    by by_computation.
  rewrite Heq, endsWith_app in Hends. discriminate.
Defined.

(** ** The two kinds of line *)

(** A line that reports a file is never a summary line: the two start with
    different characters. *)
Lemma optimized_line_is_no_done_line (rel : string) (o nw n saved : Z) :
  optimized_line rel o nw <> done_line n saved.
Proof.
  unfold optimized_line, done_line. rewrite !app_cons. discriminate.
Qed.

Lemma report_lines_hold_no_done_line (root : string)
    (cs : list (string * Z * Z)) (n saved : Z) :
  done_line n saved ∉ report_lines root cs.
Proof.
  unfold report_lines. induction cs as [|c cs IH]; simpl.
  - by intros ?%elem_of_nil.
  - intros [Heq|Hin]%elem_of_cons; [|done].
    symmetry in Heq. by apply optimized_line_is_no_done_line in Heq.
Qed.

(** X15: the error stream and the exit status: a run that ends with
    status 0 has printed nothing on the error stream; a run that ends with
    status 1 has printed exactly one error, the one [main] rejected with,
    and on the output only lines that report a file, so no summary line;
    there is no other status. *)
Theorem exit_status_and_error_stream
    {St : Type} `{!NodeFs St} {Img : Type} `{!SharpLib Img}
    (process : Process) (fuel : nat) (w : World St) :
  let res := run process fuel w in
  (res.1 = Some 0 /\ (exists u, (main process fuel w).1 = Resolved u)
   /\ stderr res.2 = stderr w)
  \/ (res.1 = Some 1
      /\ (exists e, (main process fuel w).1 = Rejected e
                    /\ stderr res.2 = stderr w ++ [e])
      /\ (exists cs, new_lines w res.2 = report_lines (ROOT process) cs)
      /\ (forall n saved, done_line n saved ∉ new_lines w res.2))
  \/ (res.1 = None /\ (main process fuel w).1 = NoFuel
      /\ stderr res.2 = stderr w).
Proof.
  intros res. subst res.
  pose proof (main_stderr process fuel w) as Herr.
  unfold run in *.
  destruct (main process fuel w) as [[u|e|] w1] eqn:Hmain; simpl in *.
  - left. eauto.
  - right; left. split; [done|]. split; [exists e; by rewrite Herr|].
    assert (Hcs : exists cs, new_lines w w1 = report_lines (ROOT process) cs).
    { revert Hmain. rewrite main_eq.
      destruct (fs_access _ _); [|done].
      destruct (walk _ _ _) as [[files|e1|] w2] eqn:Hwalk.
      + destruct (main_loop _ _ _ _ w2) as [[[n saved]|e2|] w3] eqn:Hloop;
          [done| |done].
        intros [= <- <-].
        apply main_loop_sound in Hloop as (Hout & _).
        apply listing_only_walk in Hwalk as (_ & Ho & _). simpl in Ho.
        eexists. apply new_lines_app. simpl. by rewrite Hout, Ho.
      + intros [= <- <-].
        apply listing_only_walk in Hwalk as (_ & Ho & _). simpl in Ho.
        exists []. apply new_lines_app. simpl. by rewrite Ho, app_nil_r.
      + done. }
    split; [done|]. destruct Hcs as [cs Hcs].
    intros n saved. change (done_line n saved ∉ new_lines w w1).
    rewrite Hcs. apply report_lines_hold_no_done_line.
  - right; right. done.
Qed.

(** ** Every file once, and what a run leaves in it *)

Section WalkOnce.

Lemma string_app_assoc (a b c : string) : (a +:+ b) +:+ c = a +:+ b +:+ c.
Proof. induction a as [|x a IH]; [done|]. rewrite !app_cons. by f_equal. Qed.

Lemma endsWith_slash_free (nm : string) :
  Posix.has_slash nm = false -> endsWith nm "/" = false.
Proof.
  induction nm as [|c nm IH]; [done|]. cbn [Posix.has_slash endsWith].
  intros [Hc Hnm]%orb_false_iff. rewrite (IH Hnm), orb_false_r.
  apply String.eqb_neq. intros [= -> _]. done.
Qed.

Lemma endsWith_slash_app (a nm : string) :
  nm <> "" -> endsWith (a +:+ nm) "/" = endsWith nm "/".
Proof.
  intros Hnm. induction a as [|c a IH]; [done|].
  rewrite app_cons. cbn [endsWith]. rewrite IH.
  replace (String.eqb (String c (a +:+ nm)) "/") with false; [done|].
  symmetry. apply String.eqb_neq. intros [= _ H].
  destruct a; [by rewrite app_empty in H|by rewrite app_cons in H].
Qed.

Lemma dir_prefix_join (dir nm : string) :
  Posix.plain_name nm ->
  Path.dir_prefix (Path.join dir nm) = Path.join dir nm +:+ "/".
Proof.
  intros [Hnm Hslash]. unfold Path.dir_prefix at 1. unfold Path.join at 1.
  by rewrite (endsWith_slash_app _ _ Hnm), (endsWith_slash_free _ Hslash).
Qed.

Lemma below_within (d : Posix.disk) (dir nm p : string) :
  Posix.plain_name nm ->
  Posix.below d (Path.join dir nm) p -> Posix.within dir nm p.
Proof.
  intros Hnm (_ & rest & -> & _)%below_is_file.
  exists ("/" +:+ rest). rewrite (dir_prefix_join _ _ Hnm), string_app_assoc.
  split; [done|]. right. by exists rest.
Qed.

Lemma slash_free_split (nm1 nm2 t1 t2 : string) :
  Posix.has_slash nm1 = false -> Posix.has_slash nm2 = false ->
  (t1 = "" \/ exists r, t1 = "/" +:+ r) ->
  (t2 = "" \/ exists r, t2 = "/" +:+ r) ->
  nm1 +:+ t1 = nm2 +:+ t2 -> nm1 = nm2.
Proof.
  revert nm2. induction nm1 as [|c nm1 IH]; intros [|c2 nm2] H1 H2 Ht1 Ht2.
  - done.
  - rewrite app_empty, app_cons. cbn [Posix.has_slash] in H2.
    apply orb_false_iff in H2 as [Hc _].
    destruct Ht1 as [-> |[r ->]]; [done|].
    rewrite app_cons. intros [= <- _]. done.
  - rewrite app_empty, app_cons. cbn [Posix.has_slash] in H1.
    apply orb_false_iff in H1 as [Hc _].
    destruct Ht2 as [-> |[r ->]]; [done|].
    rewrite app_cons. intros [= -> _]. done.
  - rewrite !app_cons. cbn [Posix.has_slash] in H1, H2.
    apply orb_false_iff in H1 as [_ H1]. apply orb_false_iff in H2 as [_ H2].
    intros [= -> Heq]. f_equal. by eapply IH.
Qed.

(** A path belongs to one entry of a directory only. *)
Lemma within_inj (dir nm1 nm2 p : string) :
  Posix.plain_name nm1 -> Posix.plain_name nm2 ->
  Posix.within dir nm1 p -> Posix.within dir nm2 p -> nm1 = nm2.
Proof.
  intros [_ H1] [_ H2] (t1 & -> & Ht1) (t2 & Heq & Ht2).
  unfold Path.join in Heq. rewrite !string_app_assoc in Heq.
  apply (inj (String.app _)) in Heq.
  exact (slash_free_split _ _ _ _ H1 H2 Ht1 Ht2 Heq).
Qed.

Lemma NoDup_omap_inj {A B : Type} (f : A -> option B) (l : list A) :
  (forall x y b, f x = Some b -> f y = Some b -> x = y) ->
  NoDup l -> NoDup (omap f l).
Proof.
  intros Hinj. induction 1 as [|x l Hx Hl IH]; simpl; [constructor|].
  destruct (f x) as [b|] eqn:Hb; [|done]. constructor; [|done].
  intros (y & Hy & Hfy)%list_elem_of_omap.
  by rewrite (Hinj _ _ _ Hb Hfy) in Hx.
Qed.

(** [readdir] lists no name twice. *)
Lemma entries_of_names (dir : string) (d : Posix.disk) :
  NoDup (name <$> Posix.entries_of dir d).
Proof.
  unfold Posix.entries_of. rewrite merge_sort_Permutation.
  unfold Posix.children_of.
  assert (Heq : forall l : list (string * Posix.node),
            name <$> omap (fun qn : string * Posix.node =>
                             match Posix.child_name dir qn.1 with
                             | Some nm =>
                                 Some {| name := nm;
                                         isDirectory := Posix.is_dir qn.2 |}
                             | None => None
                             end) l
            = omap (Posix.child_name dir) (l.*1)).
  { induction l as [|[q n] l IH]; [done|]. simpl.
    destruct (Posix.child_name dir q); simpl; [f_equal|]; exact IH. }
  rewrite Heq. apply NoDup_omap_inj; [|apply NoDup_fst_map_to_list].
  intros q1 q2 nm [-> _]%plain_child_name [-> _]%plain_child_name. done.
Qed.

Lemma walk_entries_once (rec : string -> M Posix.disk (list string))
    (dir : string) (d : Posix.disk) (entries : list Dirent) :
  (forall sub, listing_only (rec sub)) ->
  (forall sub v files v',
     rec sub v = (Resolved files, v') -> store v = d ->
     NoDup files /\ forall p, p ∈ files -> Posix.below d sub p) ->
  NoDup (name <$> entries) ->
  Forall (fun e => Posix.plain_name (name e)) entries ->
  forall (out : list string) (w w' : World Posix.disk) (files : list string),
    walk_entries rec dir entries out w = (Resolved files, w') ->
    store w = d ->
    NoDup out ->
    (forall p e, p ∈ out -> e ∈ entries -> ~ Posix.within dir (name e) p) ->
    NoDup files.
Proof.
  intros Hlist Hrec.
  induction entries as [|e entries IH];
    intros Hnames Hplain out w w' files Hwalk Hd Hout Hapart.
  - by injection Hwalk as <- <-.
  - apply NoDup_cons in Hnames as [Hname Hnames].
    apply Forall_cons in Hplain as [Hnm Hplain].
    assert (Hothers : forall p e', Posix.within dir (name e) p ->
                        e' ∈ entries -> ~ Posix.within dir (name e') p).
    { intros p e' Hp He' Hp'. apply Hname, list_elem_of_fmap.
      exists e'. split; [|done].
      rewrite Forall_forall in Hplain.
      eapply within_inj; eauto. }
    simpl in Hwalk. destruct (isDirectory e) eqn:He.
    + unfold bind in Hwalk.
      destruct (rec (Path.join dir (name e)) w) as [[sub|err|] w1] eqn:E;
        [|done..].
      destruct (Hrec _ _ _ _ E Hd) as [Hsub Hbelow].
      apply Hlist in E as (Hs & _).
      eapply (IH Hnames Hplain); [exact Hwalk|congruence| |].
      * apply NoDup_app. split; [done|]. split; [|done].
        intros p Hp Hp'%Hbelow%below_within; [|done].
        eapply Hapart; [exact Hp|apply elem_of_cons; auto|done].
      * intros p e' [Hp|Hp]%elem_of_app He'.
        -- apply Hapart; [done|apply elem_of_cons; auto].
        -- apply Hothers; [|done]. by apply Hbelow, below_within in Hp.
    + eapply (IH Hnames Hplain); [exact Hwalk|done| |].
      * apply NoDup_app. split; [done|]. split; [|apply NoDup_singleton].
        intros p Hp ->%list_elem_of_singleton.
        eapply Hapart; [exact Hp|apply elem_of_cons; auto|].
        exists "". split; [|by left].
        clear. induction (Path.join dir (name e)) as [|c s IH]; [done|].
        rewrite app_cons. by f_equal.
      * intros p e' [Hp| ->%list_elem_of_singleton]%elem_of_app He'.
        -- apply Hapart; [done|apply elem_of_cons; auto].
        -- apply Hothers; [|done]. exists "". split; [|by left].
           clear. induction (Path.join dir (name e)) as [|c s IH]; [done|].
           rewrite app_cons. by f_equal.
Qed.

Lemma walk_once (fuel : nat) (dir : string) (w w' : World Posix.disk)
    (files : list string) :
  walk fuel dir w = (Resolved files, w') -> NoDup files.
Proof.
  revert dir w w' files.
  induction fuel as [|fuel IH]; intros dir w w' files; [done|].
  simpl. unfold bind, readdir, lift. simpl. unfold Posix.readdir.
  destruct (store w !! dir) as [[data|]|] eqn:Hdir; [done| |done].
  intros Hwalk.
  eapply (walk_entries_once (walk fuel) dir (store w)) in Hwalk; try done.
  - intros sub. apply listing_only_walk.
  - intros sub v fs v' Hsub <-. split; [by eapply IH|].
    intros p Hp. by eapply walk_below.
  - apply entries_of_names.
  - apply Forall_forall. by intros e [Hnm _]%entries_of_iff.
  - constructor.
  - intros p e Hp. by apply elem_of_nil in Hp.
Qed.

End WalkOnce.

(** X16: [walk] yields every file once: on the concrete store the list it
    resolves with has no path twice (the entries of a directory have
    different names, and what lies under one entry lies under no other),
    so the loop of [main] visits no candidate twice. *)
Theorem walk_yields_every_file_once
    (fuel : nat) (dir : string) (w w' : World Posix.disk)
    (files : list string) :
  walk fuel dir w = (Resolved files, w') ->
  NoDup files /\ NoDup (List.filter is_webp files).
Proof.
  intros Hwalk%walk_once. split; [done|].
  by apply NoDup_ListNoDup, List.NoDup_filter, NoDup_ListNoDup.
Qed.

Lemma walk_yields_every_file_once_witness :
  (walk (Posix.depth_bound Examples.site) "/site/images"
     (Posix.start Examples.site)).1
  = Resolved ["/site/images/logo.WEBP"; "/site/images/notes.txt";
              "/site/images/sub/broken.webp"; "/site/images/sub/hero.webp";
              "/site/images/sub/icon.webp"] /\
  NoDup (List.filter is_webp
           ["/site/images/logo.WEBP"; "/site/images/notes.txt";
            "/site/images/sub/broken.webp"; "/site/images/sub/hero.webp";
            "/site/images/sub/icon.webp"]).
Proof.
  pose (w := Posix.start Examples.site).
  pose (files := ["/site/images/logo.WEBP"; "/site/images/notes.txt";
                  "/site/images/sub/broken.webp"; "/site/images/sub/hero.webp";
                  "/site/images/sub/icon.webp"]).
  pose (w' := (walk (Posix.depth_bound Examples.site) "/site/images" w).2).
  assert (H1 : (walk (Posix.depth_bound Examples.site) "/site/images" w).1
               = Resolved files) by by_computation.
  assert (Hwalk : walk (Posix.depth_bound Examples.site) "/site/images" w
                  = (Resolved files, w')).
  { rewrite <- H1. apply surjective_pairing. }
  split; [exact H1|].
  exact (proj2 (walk_yields_every_file_once _ _ _ _ _ Hwalk)).
Defined.

(** ** What a run leaves in a candidate *)

Section CandidatesOnDisk.

Context {Img : Type} `{!SharpLib Img}.
Variable process : Process.

(** One file, whatever it settles to: afterwards it holds the bytes it
    held or the output of the pipeline on them. *)
Lemma posix_step_self (f : string) (w w' : World Posix.disk)
    (r : outcome OptimizeResult) (buf : Buffer) :
  optimize_run process f w r w' ->
  store w !! f = Some (Posix.File buf) ->
  store w' !! f = Some (Posix.File buf) \/
  exists out, pipeline_output process buf = Ok out /\
              store w' !! f = Some (Posix.File out).
Proof.
  intros Hrun Hbuf.
  destruct Hrun as
    [Hf|e Hf Hread|buf0 e Hf Hread Hsharp|buf0 img e Hf Hread Hsharp Hmeta
    |buf0 img meta e Hf Hread Hsharp Hmeta Hpipe
    |buf0 img meta outBuf Hf Hread Hsharp Hmeta Hpipe Hneed
    |buf0 img meta outBuf e s1 Hf Hread Hsharp Hmeta Hpipe Hneed Hw
    |buf0 img meta outBuf s1 e s2 Hf Hread Hsharp Hmeta Hpipe Hneed Hw Hr
    |buf0 img meta outBuf s1 s2 Hf Hread Hsharp Hmeta Hpipe Hneed Hw Hr];
    simpl; try (by left).
  - apply posix_write_err in Hw as ->. by left.
  - apply posix_rename_err in Hr as ->.
    apply posix_write_ok in Hw as [-> _]. left.
    by rewrite lookup_insert_ne by apply tmp_neq.
  - apply posix_write_ok in Hw as [-> _].
    apply posix_rename_ok in Hr as (data & Hdata & ->).
    rewrite lookup_insert_eq in Hdata. injection Hdata as <-.
    apply posix_read_ok in Hread. rewrite Hbuf in Hread. injection Hread as <-.
    right. exists outBuf. split; [done|]. by rewrite lookup_insert_eq.
Qed.

Lemma posix_loop_candidates (webps : list string)
    (changedCount savedBytes : Z) (w w' : World Posix.disk)
    (r : outcome (Z * Z)) :
  main_loop process webps changedCount savedBytes w = (r, w') ->
  NoDup webps ->
  forall p buf,
    is_webp p = true -> store w !! p = Some (Posix.File buf) ->
    store w' !! p = Some (Posix.File buf) \/
    (p ∈ webps /\
     exists out, pipeline_output process buf = Ok out /\
                 store w' !! p = Some (Posix.File out)).
Proof.
  revert changedCount savedBytes w.
  induction webps as [|f webps IH]; intros c s w.
  - intros [= <- <-] _ p buf _ Hbuf. by left.
  - intros Hloop [Hf Hnd]%NoDup_cons p buf Hp Hbuf.
    rewrite main_loop_cons in Hloop.
    destruct (optimizeWebp process f w) as [ro w1] eqn:E.
    apply optimizeWebp_inv in E.
    pose proof (posix_step _ _ _ _ _ E) as (_ & Hframe & _).
    assert (Hnext : forall c1 s1 w2,
              store w2 = store w1 ->
              main_loop process webps c1 s1 w2 = (r, w') ->
              store w' !! p = Some (Posix.File buf) \/
              (p ∈ f :: webps /\
               exists out, pipeline_output process buf = Ok out /\
                           store w' !! p = Some (Posix.File out))).
    { intros c1 s1 w2 Hw2 Hrest.
      destruct (decide (p = f)) as [-> |Hpf].
      - destruct (posix_step_self _ _ _ _ _ E Hbuf) as [H1|(out & Hout & H1)];
          rewrite <- Hw2 in H1;
          destruct (IH _ _ _ Hrest Hnd _ _ Hp H1) as [H2|[Hin _]];
          try done.
        + by left.
        + right. split; [apply elem_of_cons; auto|]. eauto.
      - assert (H1 : store w2 !! p = Some (Posix.File buf)).
        { rewrite Hw2, Hframe; [done|done|].
          intros ->. by rewrite is_webp_tmp in Hp. }
        destruct (IH _ _ _ Hrest Hnd _ _ Hp H1) as [H2|[Hin H2]];
          [by left|].
        right. split; [apply elem_of_cons; auto|done]. }
    assert (Hstop : w' = w1 ->
              store w' !! p = Some (Posix.File buf) \/
              (p ∈ f :: webps /\
               exists out, pipeline_output process buf = Ok out /\
                           store w' !! p = Some (Posix.File out))).
    { intros ->. destruct (decide (p = f)) as [-> |Hpf].
      - destruct (posix_step_self _ _ _ _ _ E Hbuf) as [H1|(out & Hout & H1)];
          [by left|].
        right. split; [apply elem_of_cons; auto|]. eauto.
      - left. rewrite Hframe; [done|done|].
        intros ->. by rewrite is_webp_tmp in Hp. }
    destruct ro as [[reason|rs o n wd]|e|].
    + eapply Hnext; [|exact Hloop]. reflexivity.
    + eapply Hnext; [|exact Hloop]. reflexivity.
    + injection Hloop as <- <-. by apply Hstop.
    + injection Hloop as <- <-. by apply Hstop.
Qed.

End CandidatesOnDisk.

(** X17: what a run leaves in a candidate, whatever it ends with: on the
    concrete store a file whose path passes the filter holds afterwards
    either the bytes it held before the run or, when it lies below
    [<cwd>/images], the complete output of the pipeline on those bytes;
    never anything else, also when the run fails half-way. *)
Theorem candidate_holds_original_or_output
    {Img : Type} `{!SharpLib Img} (process : Process) (fuel : nat)
    (w : World Posix.disk) (p : string) (buf : Buffer) :
  is_webp p = true ->
  store w !! p = Some (Posix.File buf) ->
  let w' := (run process fuel w).2 in
  store w' !! p = Some (Posix.File buf) \/
  (Posix.below (store w) (TARGET_DIR process) p /\
   exists out, pipeline_output process buf = Ok out /\
               store w' !! p = Some (Posix.File out)).
Proof.
  intros Hp Hbuf w'. subst w'. unfold run. rewrite main_eq.
  destruct (fs_access _ _); [|by left].
  destruct (walk _ _ _) as [r1 w1] eqn:Hwalk.
  pose proof (listing_only_walk _ _ _ _ _ Hwalk) as (Hs1 & _). simpl in Hs1.
  destruct r1 as [files|e|]; [|left; simpl; by rewrite Hs1..].
  pose proof (walk_once _ _ _ _ _ Hwalk) as Hnd.
  pose proof (walk_below _ _ _ _ _ Hwalk) as Hbelow. simpl in Hbelow.
  destruct (main_loop _ _ _ _ w1) as [r2 w2] eqn:Hloop.
  apply (posix_loop_candidates process) with (p := p) (buf := buf) in Hloop;
    [| by apply NoDup_ListNoDup, List.NoDup_filter, NoDup_ListNoDup
     | done | by rewrite Hs1].
  assert (Hgoal : store w2 !! p = Some (Posix.File buf) \/
            (Posix.below (store w) (TARGET_DIR process) p /\
             exists out, pipeline_output process buf = Ok out /\
                         store w2 !! p = Some (Posix.File out))).
  { destruct Hloop as [?|[Hin ?]]; [by left|right]. split; [|done].
    apply Hbelow. apply list_elem_of_In, filter_In in Hin. 
    apply list_elem_of_In. tauto. }
  destruct r2 as [[n saved]|e|]; simpl; done.
Qed.

Lemma candidate_holds_original_or_output_witness :
  store (Examples.go Examples.defaults Examples.site).2
    !! "/site/images/logo.WEBP"
  = Some (Posix.File [Byte.x08; Byte.x2a; Byte.x2a]) /\
  (store (Examples.go Examples.defaults Examples.site).2
     !! "/site/images/logo.WEBP"
   = Some (Posix.File (Examples.image Byte.x08 5)) \/
   (Posix.below Examples.site "/site/images" "/site/images/logo.WEBP" /\
    exists out,
      pipeline_output (Img := Stub.Image) Examples.defaults
        (Examples.image Byte.x08 5) = Ok out /\
      store (Examples.go Examples.defaults Examples.site).2
        !! "/site/images/logo.WEBP" = Some (Posix.File out))).
Proof.
  split; [by_computation|].
  pose proof (candidate_holds_original_or_output (Img := Stub.Image)
                Examples.defaults (Posix.depth_bound Examples.site)
                (Posix.start Examples.site) "/site/images/logo.WEBP"
                (Examples.image Byte.x08 5)) as H.
  specialize (H ltac:(by_computation) ltac:(by_computation)).
  exact H.
Defined.

(** X18: on a finite store the script ends: with [depth_bound] of fuel or
    more the run comes to an exit status, 0 or 1, and the status and the
    world it ends in do not depend on how much more fuel there is. *)
Theorem run_ends_with_a_status
    {Img : Type} `{!SharpLib Img} (process : Process) (fuel : nat)
    (w : World Posix.disk) :
  (Posix.depth_bound (store w) <= fuel)%nat ->
  run process fuel w = run process (Posix.depth_bound (store w)) w /\
  ((run process fuel w).1 = Some 0 \/ (run process fuel w).1 = Some 1).
Proof.
  intros Hle.
  assert (Heq : main process fuel w
                = main process (Posix.depth_bound (store w)) w).
  { rewrite !main_eq. destruct (fs_access _ _); [|done].
    set (w0 := logged _ _ w).
    pose proof (PosixFacts.walk_total (Posix.depth_bound (store w))
                  (TARGET_DIR process) w0) as Hret.
    destruct (walk (Posix.depth_bound (store w)) _ w0) as [r1 w1] eqn:Hwalk.
    rewrite (walk_fuel_mono _ fuel _ _ _ _ Hwalk); [done| |done].
    apply Hret; [change (store w0) with (store w); lia
                |unfold Posix.depth_bound; lia]. }
  assert (Hrun : run process fuel w
                 = run process (Posix.depth_bound (store w)) w)
    by (unfold run; by rewrite Heq).
  split; [done|]. rewrite Hrun.
  pose proof (PosixFacts.run_total process w) as Hst.
  unfold run in *.
  destruct (main process (Posix.depth_bound (store w)) w) as [[u|e|] w1];
    simpl in *; auto. done.
Qed.

Lemma run_ends_with_a_status_witness :
  (run (Img := Stub.Image) Examples.defaults 1000
     (Posix.start Examples.site)).1 = Some 0 \/
  (run (Img := Stub.Image) Examples.defaults 1000
     (Posix.start Examples.site)).1 = Some 1.
Proof.
  refine (proj2 (run_ends_with_a_status (Img := Stub.Image) Examples.defaults
                   1000 (Posix.start Examples.site) _)).
  vm_compute. lia.
Defined.
